(** * go-short-link: the documentation build configuration and the reference design

    The repository fragment under study is [docs/conf.py], the Sphinx
    configuration of the Go-Short-Link documentation.  Part I embeds that
    module: the bindings keep their Python names, the module is the list of
    its statements in source order, and a small evaluator for the Python
    fragment (literals, names, calls, imports, definitions) runs it against
    an explicit world.  Part II models the short-link service that the
    specification describes. *)

From Stdlib Require Import String Ascii List ZArith Bool Lia.
From stdpp Require Import base list strings.
Import ListNotations.

Set Warnings "-register-all".

Local Open Scope string_scope.
Local Open Scope list_scope.

(* ===================================================================== *)
(** * Part I: docs/conf.py                                                *)
(* ===================================================================== *)

Module Conf.

(** ** The Python fragment *)

(** Expressions.  [conf.py] only uses the first four forms; names and calls
    are the forms through which a configuration module could read its
    surroundings. *)
Inductive expr : Type :=
| EStr (s : string)
| EBool (b : bool)
| EList (es : list expr)
| EDict (kvs : list (expr * expr))
| EName (x : string)
| ECall (f : string) (args : list expr).

(** Statements of a module body. *)
Inductive stmt : Type :=
| SAssign (x : string) (e : expr)
| SExpr (e : expr)
| SImport (m : string)
| SDef (f : string) (params : list string) (body : list stmt).

(** Run-time values.  A dict keeps its items in insertion order. *)
Inductive value : Type :=
| VStr (s : string)
| VBool (b : bool)
| VList (vs : list value)
| VDict (items : list (value * value))
| VFunc (name : string)
| VModule (name : string).

(** What evaluation does to the outside: calls of functions the module does
    not define (file access, environment, printing) and imports. *)
Inductive event : Type :=
| EvCall (f : string) (args : list value)
| EvImport (m : string).

(** The surroundings of an evaluation: the result of every external call. *)
Record World : Type := {
  w_call : string -> list value -> option value;
  w_import : string -> bool
}.

(** The module namespace, in binding order. *)
Definition Env : Type := list (string * value).

Fixpoint env_get (x : string) (env : Env) : option value :=
  match env with
  | [] => None
  | (y, v) :: env' => if String.eqb x y then Some v else env_get x env'
  end.

(** Rebinding a name keeps its position, a new name goes last. *)
Fixpoint env_set (x : string) (v : value) (env : Env) : Env :=
  match env with
  | [] => [(x, v)]
  | (y, u) :: env' =>
      if String.eqb x y then (y, v) :: env' else (y, u) :: env_set x v env'
  end.

(** Keys of a dict must be hashable: lists and dicts are not. *)
Definition hashable (v : value) : bool :=
  match v with
  | VList _ | VDict _ => false
  | _ => true
  end.

Definition key_eqb (a b : value) : bool :=
  match a, b with
  | VStr s, VStr t => String.eqb s t
  | VBool x, VBool y => Bool.eqb x y
  | VFunc f, VFunc g => String.eqb f g
  | VModule m, VModule n => String.eqb m n
  | _, _ => false
  end.

Fixpoint dict_get (k : value) (items : list (value * value)) : option value :=
  match items with
  | [] => None
  | (k', v) :: items' => if key_eqb k k' then Some v else dict_get k items'
  end.

Fixpoint dict_set (k v : value) (items : list (value * value))
  : list (value * value) :=
  match items with
  | [] => [(k, v)]
  | (k', u) :: items' =>
      if key_eqb k k' then (k', v) :: items' else (k', u) :: dict_set k v items'
  end.

(** Evaluation of an expression: its value and the events it caused, or
    [None] when Python raises (unbound name, unhashable key, failed call). *)
Fixpoint eval_expr (w : World) (env : Env) (e : expr) {struct e}
  : option (value * list event) :=
  match e with
  | EStr s => Some (VStr s, [])
  | EBool b => Some (VBool b, [])
  | EList es =>
      match
        (fix eval_list (es : list expr) : option (list value * list event) :=
           match es with
           | [] => Some ([], [])
           | e1 :: es' =>
               match eval_expr w env e1 with
               | None => None
               | Some (v, t1) =>
                   match eval_list es' with
                   | None => None
                   | Some (vs, t2) => Some (v :: vs, t1 ++ t2)
                   end
               end
           end) es
      with
      | None => None
      | Some (vs, t) => Some (VList vs, t)
      end
  | EDict kvs =>
      match
        (fix eval_items (kvs : list (expr * expr)) (acc : list (value * value))
           : option (list (value * value) * list event) :=
           match kvs with
           | [] => Some (acc, [])
           | (ek, ev) :: kvs' =>
               match eval_expr w env ek with
               | None => None
               | Some (k, t1) =>
                   match eval_expr w env ev with
                   | None => None
                   | Some (v, t2) =>
                       if hashable k then
                         match eval_items kvs' (dict_set k v acc) with
                         | None => None
                         | Some (d, t3) => Some (d, t1 ++ t2 ++ t3)
                         end
                       else None
                   end
               end
           end) kvs []
      with
      | None => None
      | Some (d, t) => Some (VDict d, t)
      end
  | EName x =>
      match env_get x env with
      | None => None
      | Some v => Some (v, [])
      end
  | ECall f args =>
      match
        (fix eval_args (es : list expr) : option (list value * list event) :=
           match es with
           | [] => Some ([], [])
           | e1 :: es' =>
               match eval_expr w env e1 with
               | None => None
               | Some (v, t1) =>
                   match eval_args es' with
                   | None => None
                   | Some (vs, t2) => Some (v :: vs, t1 ++ t2)
                   end
               end
           end) args
      with
      | None => None
      | Some (vs, t) =>
          match w_call w f vs with
          | None => None
          | Some r => Some (r, t ++ [EvCall f vs])
          end
      end
  end.

(** One statement of the module body. *)
Definition exec_stmt (w : World) (st : Env * list event) (s : stmt)
  : option (Env * list event) :=
  let '(env, tr) := st in
  match s with
  | SAssign x e =>
      match eval_expr w env e with
      | None => None
      | Some (v, t) => Some (env_set x v env, tr ++ t)
      end
  | SExpr e =>
      match eval_expr w env e with
      | None => None
      | Some (_, t) => Some (env, tr ++ t)
      end
  | SImport m =>
      if w_import w m
      then Some (env_set m (VModule m) env, tr ++ [EvImport m])
      else None
  | SDef f _ _ => Some (env_set f (VFunc f) env, tr)
  end.

Fixpoint exec_stmts (w : World) (st : Env * list event) (body : list stmt)
  : option (Env * list event) :=
  match body with
  | [] => Some st
  | s :: body' =>
      match exec_stmt w st s with
      | None => None
      | Some st' => exec_stmts w st' body'
      end
  end.

(** Evaluating a module: its body run in an empty namespace. *)
Definition exec_module (w : World) (body : list stmt)
  : option (Env * list event) :=
  exec_stmts w ([], []) body.

(** ** Literals *)

(** A literal expression: strings, booleans, and lists and dicts of
    literals. *)
Fixpoint is_literal (e : expr) : bool :=
  match e with
  | EStr _ | EBool _ => true
  | EList es => forallb is_literal es
  | EDict kvs =>
      forallb (fun kv => is_literal (fst kv) && is_literal (snd kv)) kvs
  | EName _ | ECall _ _ => false
  end.

(** A constant binding: a name assigned a literal. *)
Definition is_const_binding (s : stmt) : bool :=
  match s with
  | SAssign _ e => is_literal e
  | _ => false
  end.

Definition is_def (s : stmt) : bool :=
  match s with SDef _ _ _ => true | _ => false end.

Definition is_import (s : stmt) : bool :=
  match s with SImport _ => true | _ => false end.

(** A constant value: no function or module object anywhere inside. *)
Fixpoint is_const_value (v : value) : bool :=
  match v with
  | VStr _ | VBool _ => true
  | VList vs => forallb is_const_value vs
  | VDict items =>
      forallb (fun kv => is_const_value (fst kv) && is_const_value (snd kv)) items
  | VFunc _ | VModule _ => false
  end.

(** A namespace of constants. *)
Definition const_env (env : Env) : bool :=
  forallb (fun b => is_const_value (snd b)) env.

(** [module_get w body x]: the attribute [x] of the module once evaluated. *)
Definition module_get (w : World) (body : list stmt) (x : string)
  : option value :=
  match exec_module w body with
  | Some (env, _) => env_get x env
  | None => None
  end.

Definition str_list (l : list string) : expr := EList (map EStr l).

Definition str_dict (d : list (string * string)) : expr :=
  EDict (map (fun kv => (EStr (fst kv), EStr (snd kv))) d).

Definition vstr_list (l : list string) : value := VList (map VStr l).

Definition vstr_dict (d : list (string * string)) : value :=
  VDict (map (fun kv => (VStr (fst kv), VStr (snd kv))) d).

(** ** String helpers *)

Definition lower_ascii (c : ascii) : ascii :=
  let n := nat_of_ascii c in
  if (65 <=? n)%nat && (n <=? 90)%nat then ascii_of_nat (n + 32) else c.

Fixpoint lower (s : string) : string :=
  match s with
  | EmptyString => EmptyString
  | String c s' => String (lower_ascii c) (lower s')
  end.

(** [contains p s]: [p] occurs in [s] ([p in s] in Python). *)
Fixpoint contains (p s : string) : bool :=
  String.prefix p s ||
  match s with
  | EmptyString => false
  | String _ s' => contains p s'
  end.

(** [ends_with suf s]: [s.endswith(suf)]. *)
Definition ends_with (suf s : string) : bool :=
  let n := String.length s in
  let k := String.length suf in
  (k <=? n)%nat && String.eqb (String.substring (n - k) k s) suf.

Fixpoint assoc (k : string) (d : list (string * string)) : option string :=
  match d with
  | [] => None
  | (k', v) :: d' => if String.eqb k k' then Some v else assoc k d'
  end.

(** ** The bindings of conf.py, under their Python names

    Strings are sequences of UTF-8 bytes, as the file stores them. *)

(* -- Project information -- *)
Definition project : string := "Go-Short-Link".
Definition copyright : string := "2025, Fabian Wünderich".
Definition author : string := "Fabian Wünderich".

Definition version : string := "1".

(* -- General configuration -- *)
Definition extensions : list string :=
  [ "myst_parser";
    "sphinx_rtd_theme";
    "sphinx_toolbox.collapse"
    (* 'sphinx_togglebutton' is commented out in the source *)
  ].

Definition templates_path : list string := ["_templates"].
Definition exclude_patterns : list string :=
  ["_build"; "Thumbs.db"; ".DS_Store"; "requirements.txt"].

(* -- Options for HTML output -- *)
Definition html_theme : string := "sphinx_rtd_theme".
Definition html_static_path : list string := ["_static"].
Definition html_css_files : list string :=
  [ "css/custom.css" ].
Definition html_js_files : list string :=
  [ "js/custom.js" ].

Definition source_suffix : list (string * string) :=
  [ (".rst", "restructuredtext");
    (".txt", "markdown");
    (".md", "markdown") ].

Definition myst_enable_extensions : list string :=
  [ "amsmath";
    "attrs_inline";
    "colon_fence";
    "deflist";
    "dollarmath";
    "fieldlist";
    "html_admonition";
    "html_image";
    "linkify";
    "replacements";
    "smartquotes";
    "strikethrough";
    "substitution";
    "tasklist" ].

Definition html_context : list (string * expr) :=
  [ ("display_github", EBool true);
    ("github_user", EStr "fanonwue");
    ("github_repo", EStr "go-short-link");
    ("github_version", EStr "master");
    ("conf_py_path", EStr "/docs/") ].

Definition dict_expr (d : list (string * expr)) : expr :=
  EDict (map (fun kv => (EStr (fst kv), snd kv)) d).

(** The module: its fourteen statements in source order. *)
Definition conf_py : list stmt :=
  [ SAssign "project" (EStr project);
    SAssign "copyright" (EStr copyright);
    SAssign "author" (EStr author);
    SAssign "version" (EStr version);
    SAssign "extensions" (str_list extensions);
    SAssign "templates_path" (str_list templates_path);
    SAssign "exclude_patterns" (str_list exclude_patterns);
    SAssign "html_theme" (EStr html_theme);
    SAssign "html_static_path" (str_list html_static_path);
    SAssign "html_css_files" (str_list html_css_files);
    SAssign "html_js_files" (str_list html_js_files);
    SAssign "source_suffix" (str_dict source_suffix);
    SAssign "myst_enable_extensions" (str_list myst_enable_extensions);
    SAssign "html_context" (dict_expr html_context) ].

(** The value of [html_context] once evaluated. *)
Definition html_context_value : value :=
  VDict [ (VStr "display_github", VBool true);
          (VStr "github_user", VStr "fanonwue");
          (VStr "github_repo", VStr "go-short-link");
          (VStr "github_version", VStr "master");
          (VStr "conf_py_path", VStr "/docs/") ].

(** The namespace the module leaves behind. *)
Definition conf_namespace : Env :=
  [ ("project", VStr project);
    ("copyright", VStr copyright);
    ("author", VStr author);
    ("version", VStr version);
    ("extensions", vstr_list extensions);
    ("templates_path", vstr_list templates_path);
    ("exclude_patterns", vstr_list exclude_patterns);
    ("html_theme", VStr html_theme);
    ("html_static_path", vstr_list html_static_path);
    ("html_css_files", vstr_list html_css_files);
    ("html_js_files", vstr_list html_js_files);
    ("source_suffix", vstr_dict source_suffix);
    ("myst_enable_extensions", vstr_list myst_enable_extensions);
    ("html_context", html_context_value) ].

(** A world that answers nothing, and one that answers every call. *)
Definition silent_world : World :=
  {| w_call := fun _ _ => None; w_import := fun _ => false |}.

Definition chatty_world : World :=
  {| w_call := fun f _ => Some (VStr f); w_import := fun _ => true |}.

(** A module that does read its surroundings, for contrast:
    [home = os.getenv('HOME')]. *)
Definition probe_module : list stmt :=
  [ SAssign "home" (ECall "os.getenv" [EStr "HOME"]) ].

Definition bound_names (body : list stmt) : list string :=
  flat_map (fun s =>
              match s with
              | SAssign x _ => [x]
              | SImport m => [m]
              | SDef f _ _ => [f]
              | SExpr _ => []
              end) body.

(** ** Kinds of settings

    The source groups its settings under the headings "Project information",
    "General configuration" and "Options for HTML output".  The table reads
    each binding as generously as the four kinds of the description allow:
    the static assets go with the theme, the path settings with the file
    associations. *)
Inductive setting_kind : Type :=
| ProjectInformation
| Theme
| Extensions
| FileAssociations
| GitHubMetadata.

Definition setting_kind_eqb (a b : setting_kind) : bool :=
  match a, b with
  | ProjectInformation, ProjectInformation
  | Theme, Theme
  | Extensions, Extensions
  | FileAssociations, FileAssociations
  | GitHubMetadata, GitHubMetadata => true
  | _, _ => false
  end.

Definition setting_kinds : list (string * setting_kind) :=
  [ ("project", ProjectInformation);
    ("copyright", ProjectInformation);
    ("author", ProjectInformation);
    ("version", ProjectInformation);
    ("extensions", Extensions);
    ("templates_path", FileAssociations);
    ("exclude_patterns", FileAssociations);
    ("html_theme", Theme);
    ("html_static_path", Theme);
    ("html_css_files", Theme);
    ("html_js_files", Theme);
    ("source_suffix", FileAssociations);
    ("myst_enable_extensions", Extensions);
    ("html_context", GitHubMetadata) ].

Fixpoint kind_of (x : string) (tbl : list (string * setting_kind))
  : option setting_kind :=
  match tbl with
  | [] => None
  | (y, k) :: tbl' => if String.eqb x y then Some k else kind_of x tbl'
  end.

(** The four kinds the description enumerates. *)
Definition described_kinds : list setting_kind :=
  [Theme; Extensions; FileAssociations; GitHubMetadata].

Definition is_described_kind (k : setting_kind) : bool :=
  existsb (setting_kind_eqb k) described_kinds.

(** The names bound by [body] whose kind is [k]. *)
Definition names_of_kind (k : setting_kind) (body : list stmt) : list string :=
  List.filter (fun x => match kind_of x setting_kinds with
                   | Some k' => setting_kind_eqb k k'
                   | None => false
                   end) (bound_names body).

(** ** Domain signal

    A string refers to the short-link domain when it names it: both words
    occur, whatever the case and the separator ("Go-Short-Link",
    "go-short-link", "shortlink"). *)
Definition mentions_short_link (s : string) : bool :=
  contains "short" (lower s) && contains "link" (lower s).

Fixpoint value_mentions (v : value) : bool :=
  match v with
  | VStr s => mentions_short_link s
  | VBool _ => false
  | VList vs => existsb value_mentions vs
  | VDict items =>
      existsb (fun kv => value_mentions (fst kv) || value_mentions (snd kv)) items
  | VFunc f => mentions_short_link f
  | VModule m => mentions_short_link m
  end.

(** The bindings of a namespace that refer to the domain, by name or by
    value. *)
Definition domain_bindings (env : Env) : list string :=
  map fst (List.filter (fun b => mentions_short_link (fst b) || value_mentions (snd b)) env).

(** Inside a dict value: the keys of the items that refer to the domain. *)
Definition domain_items (v : value) : list value :=
  match v with
  | VDict items =>
      map fst (List.filter (fun kv => value_mentions (fst kv) || value_mentions (snd kv)) items)
  | _ => []
  end.

(** ** Source discovery

    What Sphinx does with these settings when it looks for documents.  It
    walks the documentation directory; a directory whose relative path an
    exclude pattern matches is not entered, and a file whose relative path
    an exclude pattern matches is dropped; the patterns are those of
    [exclude_patterns], then [templates_path], then the asset paths of the
    builder and Sphinx's own.  A file that is left becomes a document when
    [path2doc] gives it a name that is not empty, and [source_suffix] names
    its parser. *)

(** The parser of a path: that of the first suffix the path ends with. *)
Fixpoint parser_for (suffixes : list (string * string)) (path : string)
  : option string :=
  match suffixes with
  | [] => None
  | (suf, parser) :: rest =>
      if ends_with suf path then Some parser else parser_for rest path
  end.

(** The document name of a path: the path without the first suffix it ends
    with. *)
Fixpoint path2doc (suffixes : list (string * string)) (path : string)
  : option string :=
  match suffixes with
  | [] => None
  | (suf, _) :: rest =>
      if ends_with suf path
      then Some (String.substring 0 (String.length path - String.length suf) path)
      else path2doc rest path
  end.

(** Discovery keeps a file only under a document name that is not
    empty. *)
Definition has_docname (suffixes : list (string * string)) (path : string)
  : bool :=
  match path2doc suffixes path with
  | Some doc => negb (String.eqb doc "")
  | None => false
  end.

Definition glob_chars : list string := ["*"; "?"; "["].

(** A pattern without glob character: it stands for one path, itself. *)
Definition glob_free (pattern : string) : bool :=
  negb (existsb (fun c => contains c pattern) glob_chars).

(** The directories above a relative path, outermost first: [a] and [a/b]
    for [a/b/c.txt]. *)
Fixpoint dirs_above_from (seen path : string) : list string :=
  match path with
  | EmptyString => []
  | String c rest =>
      if Ascii.eqb c "/"
      then seen :: dirs_above_from (String.append seen "/") rest
      else dirs_above_from (String.append seen (String c EmptyString)) rest
  end.

Definition dirs_above (path : string) : list string :=
  dirs_above_from "" path.

(** The patterns of one build: those of the configuration, then [others],
    the asset paths of the builder and the patterns Sphinx adds itself. *)
Definition exclude_paths (others : list string) : list string :=
  exclude_patterns ++ templates_path ++ others.

(** [excluded matches patterns path]: the walk does not reach the file, a
    pattern matching one of the directories above it, or drops it, a
    pattern matching the file; [matches pattern entry] is the test of one
    pattern on one relative path. *)
Definition excluded (matches : string -> string -> bool)
  (patterns : list string) (path : string) : bool :=
  existsb (fun entry => existsb (fun pattern => matches pattern entry) patterns)
          (dirs_above path ++ [path]).

(** The test of a pattern that is read without glob characters. *)
Definition literal_match (pattern entry : string) : bool :=
  String.eqb pattern entry.

End Conf.

(* ===================================================================== *)
(** * Part II: the short-link service of the specification                *)
(* ===================================================================== *)

(** No file of the service is part of the fragment: every definition of
    this module follows the specification's sections 3 to 7, and says
    which. *)
Module ShortLink.

Local Open Scope Z_scope.

(** Modelled from the spec: the LinkMapping record of section 3 (the
    service's data model is missing from the sources), with the owner that
    sections 2 and 4.5 record for it.  Timestamps are integers. *)
Record LinkMapping : Type := mkLinkMapping {
  shortCode : string;
  targetURL : string;
  createdAt : Z;
  expiresAt : option Z;
  hitCount : Z;
  disabled : bool;
  owner : string
}.

(** Modelled from the spec: the CacheEntry record of section 3 (missing
    from the sources): derived, never authoritative. *)
Record CacheEntry : Type := mkCacheEntry {
  ce_shortCode : string;
  ce_targetURL : string;
  fetchedAt : Z
}.

(** Modelled from the spec: the error kinds of section 7. *)
Inductive error : Type :=
| NotFound
| Conflict
| ValidationError
| ExhaustionError
| Unauthorized
| StoreUnavailable.

(** Modelled from the spec: what the specification leaves to the
    deployment.  [valid_url] is the targetURL check of section 4.5
    (well-formed, no disallowed scheme); [candidate k] is the code the
    generator of section 4.1 proposes at its [k]-th draw; [max_attempts] is
    its bounded attempt count; [cache_ttl] and [cache_capacity] are the
    time-to-live and the size bound of section 4.4. *)
Record Config : Type := mkConfig {
  valid_url : string -> bool;
  candidate : nat -> string;
  max_attempts : nat;
  cache_ttl : Z;
  cache_capacity : nat
}.

(** ** Mapping Store (section 4.2) *)

(** Modelled from the spec: the Mapping Store, missing from the sources, as
    the sequence of its records in creation order. *)
Definition Store : Type := list LinkMapping.

Definition has_code (code : string) (m : LinkMapping) : bool :=
  String.eqb code (shortCode m).

(** Modelled from the spec: point lookup by shortCode; [None] is NotFound,
    and a present mapping is returned whatever its expiry state. *)
Definition store_lookup (code : string) (st : Store) : option LinkMapping :=
  List.find (has_code code) st.

(** Modelled from the spec: a create for a code that is taken fails with
    Conflict. *)
Definition store_create (m : LinkMapping) (st : Store) : Store + error :=
  match store_lookup (shortCode m) st with
  | Some _ => inr Conflict
  | None => inl (st ++ [m])
  end.

(** Modelled from the spec: the write of an update or a disable, on the
    records of one code. *)
Definition store_modify (code : string) (f : LinkMapping -> LinkMapping)
  (st : Store) : Store :=
  map (fun m => if has_code code m then f m else m) st.

Definition set_target (url : string) (expiry : option Z) (m : LinkMapping)
  : LinkMapping :=
  {| shortCode := shortCode m; targetURL := url; createdAt := createdAt m;
     expiresAt := expiry; hitCount := hitCount m; disabled := disabled m;
     owner := owner m |}.

Definition set_disabled (m : LinkMapping) : LinkMapping :=
  {| shortCode := shortCode m; targetURL := targetURL m;
     createdAt := createdAt m; expiresAt := expiresAt m;
     hitCount := hitCount m; disabled := true; owner := owner m |}.

Definition add_hit (m : LinkMapping) : LinkMapping :=
  {| shortCode := shortCode m; targetURL := targetURL m;
     createdAt := createdAt m; expiresAt := expiresAt m;
     hitCount := hitCount m + 1; disabled := disabled m; owner := owner m |}.

(** ** Cache Layer (section 4.4) *)

(** Modelled from the spec: the cache, missing from the sources, as the
    list of its entries from the most to the least recently used. *)
Definition Cache : Type := list CacheEntry.

Definition caches (code : string) (e : CacheEntry) : bool :=
  String.eqb code (ce_shortCode e).

Definition cache_find (code : string) (c : Cache) : option CacheEntry :=
  List.find (caches code) c.

(** Modelled from the spec: invalidation of the entry of one code. *)
Definition cache_invalidate (code : string) (c : Cache) : Cache :=
  List.filter (fun e => negb (caches code e)) c.

(** Modelled from the spec: an entry lives for at most the time-to-live,
    counted from [fetchedAt], whatever the mapping's [expiresAt]. *)
Definition cache_live (cfg : Config) (now : Z) (e : CacheEntry) : bool :=
  now - fetchedAt e <=? cache_ttl cfg.

(** Modelled from the spec: a read; a hit makes the entry the most recently
    used, an entry past its time-to-live is dropped and counts as a miss. *)
Definition cache_get (cfg : Config) (now : Z) (code : string) (c : Cache)
  : option CacheEntry * Cache :=
  match cache_find code c with
  | Some e =>
      if cache_live cfg now e
      then (Some e, e :: cache_invalidate code c)
      else (None, cache_invalidate code c)
  | None => (None, c)
  end.

(** Modelled from the spec: population after a miss; beyond the size bound
    the least recently used entries are evicted. *)
Definition cache_put (cfg : Config) (e : CacheEntry) (c : Cache) : Cache :=
  firstn (cache_capacity cfg) (e :: cache_invalidate (ce_shortCode e) c).

(** ** The service state *)

(** Modelled from the spec: the state of the service: the store, the cache
    in front of it, the hits not yet flushed into [hitCount] (section 5),
    and the number of codes the generator has drawn. *)
Record System : Type := mkSystem {
  store : Store;
  cache : Cache;
  pending_hits : list string;
  draws : nat
}.

Definition initial : System :=
  {| store := []; cache := []; pending_hits := []; draws := 0%nat |}.

(** ** Code Generator (section 4.1) *)

(** Modelled from the spec: the collision-retry loop of the Code
    Generator, missing from the sources.  It draws candidates from the
    [k]-th on, at most [attempts] of them, and returns the first one not
    present in the store together with the number of candidates drawn;
    when every attempt collides it fails with ExhaustionError.  The backoff
    between attempts is a delay and leaves no trace here. *)
Fixpoint generate_from (cfg : Config) (st : Store) (k attempts : nat)
  : (string + error) * nat :=
  match attempts with
  | O => (inr ExhaustionError, O)
  | S attempts' =>
      let code := candidate cfg k in
      match store_lookup code st with
      | None => (inl code, 1%nat)
      | Some _ =>
          let '(r, n) := generate_from cfg st (S k) attempts' in
          (r, S n)
      end
  end.

Definition generate (cfg : Config) (st : Store) (k : nat)
  : (string + error) * nat :=
  generate_from cfg st k (max_attempts cfg).

(** ** Resolution Engine (section 4.3) *)

Inductive link_state : Type :=
| Active
| Expired
| Disabled.

(** Modelled from the spec: a mapping is expired when its [expiresAt] is
    in the past. *)
Definition is_expired (now : Z) (m : LinkMapping) : bool :=
  match expiresAt m with
  | Some t => t <? now
  | None => false
  end.

(** Modelled from the spec: the state machine of a lookup: expired first,
    then disabled, otherwise active. *)
Definition classify (now : Z) (m : LinkMapping) : link_state :=
  if is_expired now m then Expired
  else if disabled m then Disabled
  else Active.

(** Modelled from the spec: the Resolution Engine, missing from the
    sources, behind the read-through cache of section 4.4.  The cache is
    read first: a hit serves the target of the entry, which carries no
    state to validate.  On a miss the mapping is fetched from the store:
    an unknown code is NotFound; the state machine runs on the record; an
    expired or disabled mapping gives NotFound; an active one gives its
    target and populates the cache.  A resolved lookup records a hit to be
    flushed later. *)
Definition resolve (cfg : Config) (now : Z) (code : string) (sys : System)
  : (string + error) * System :=
  match cache_get cfg now code (cache sys) with
  | (Some e, c) =>
      (inl (ce_targetURL e),
       {| store := store sys; cache := c;
          pending_hits := code :: pending_hits sys;
          draws := draws sys |})
  | (None, c) =>
      match store_lookup code (store sys) with
      | None =>
          (inr NotFound,
           {| store := store sys; cache := c;
              pending_hits := pending_hits sys; draws := draws sys |})
      | Some m =>
          match classify now m with
          | Active =>
              (inl (targetURL m),
               {| store := store sys;
                  cache :=
                    cache_put cfg
                      {| ce_shortCode := code; ce_targetURL := targetURL m;
                         fetchedAt := now |} c;
                  pending_hits := code :: pending_hits sys;
                  draws := draws sys |})
          | Expired | Disabled =>
              (inr NotFound,
               {| store := store sys; cache := c;
                  pending_hits := pending_hits sys; draws := draws sys |})
          end
      end
  end.

(** Modelled from the spec: resolution while the store is down, the
    degraded mode of sections 5 and 7: the cache alone answers, and a miss
    is NotFound. *)
Definition resolve_cache_only (cfg : Config) (now : Z) (code : string)
  (sys : System) : (string + error) * System :=
  match cache_get cfg now code (cache sys) with
  | (Some e, c) =>
      (inl (ce_targetURL e),
       {| store := store sys; cache := c;
          pending_hits := code :: pending_hits sys;
          draws := draws sys |})
  | (None, c) =>
      (inr NotFound,
       {| store := store sys; cache := c;
          pending_hits := pending_hits sys; draws := draws sys |})
  end.

(** Modelled from the spec: the flush of the recorded hits into the
    counters of the store. *)
Definition flush_hits (sys : System) : System :=
  {| store := fold_right (fun code st => store_modify code add_hit st)
                         (store sys) (pending_hits sys);
     cache := cache sys;
     pending_hits := [];
     draws := draws sys |}.

(** ** Ingestion API (section 4.5) *)

(** Modelled from the spec: the body of a creation request (section 6),
    with the identity of the requester. *)
Record CreateRequest : Type := mkCreateRequest {
  req_targetURL : string;
  req_customCode : option string;
  req_expiresAt : option Z;
  req_owner : string
}.

(** Modelled from the spec: an expiry, when given, must be future-dated. *)
Definition valid_expiry (now : Z) (expiry : option Z) : bool :=
  match expiry with
  | Some t => now <? t
  | None => true
  end.

(** Modelled from the spec: creation, missing from the sources.  The
    target and the expiry are validated; a custom code that is taken is a
    Conflict, and without a custom code the Code Generator allocates one;
    the mapping is persisted through the store. *)
Definition create (cfg : Config) (now : Z) (req : CreateRequest) (sys : System)
  : (string + error) * System :=
  if negb (valid_url cfg (req_targetURL req)) then (inr ValidationError, sys)
  else if negb (valid_expiry now (req_expiresAt req)) then (inr ValidationError, sys)
  else
    let '(allocated, n) :=
      match req_customCode req with
      | Some code =>
          match store_lookup code (store sys) with
          | Some _ => (inr Conflict, O)
          | None => (inl code, O)
          end
      | None => generate cfg (store sys) (draws sys)
      end in
    let sys1 :=
      {| store := store sys; cache := cache sys;
         pending_hits := pending_hits sys; draws := (draws sys + n)%nat |} in
    match allocated with
    | inr e => (inr e, sys1)
    | inl code =>
        match
          store_create
            {| shortCode := code; targetURL := req_targetURL req;
               createdAt := now; expiresAt := req_expiresAt req;
               hitCount := 0; disabled := false; owner := req_owner req |}
            (store sys)
        with
        | inr e => (inr e, sys1)
        | inl st =>
            (inl code,
             {| store := st; cache := cache sys;
                pending_hits := pending_hits sys;
                draws := (draws sys + n)%nat |})
        end
    end.

(** Modelled from the spec: update, missing from the sources.  The
    requester must be the recorded owner; the new target and expiry are
    validated; the cache entry of the code is invalidated as part of the
    write. *)
Definition update (cfg : Config) (now : Z) (requester code url : string)
  (expiry : option Z) (sys : System) : (unit + error) * System :=
  match store_lookup code (store sys) with
  | None => (inr NotFound, sys)
  | Some m =>
      if negb (String.eqb requester (owner m)) then (inr Unauthorized, sys)
      else if negb (valid_url cfg url) then (inr ValidationError, sys)
      else if negb (valid_expiry now expiry) then (inr ValidationError, sys)
      else
        (inl tt,
         {| store := store_modify code (set_target url expiry) (store sys);
            cache := cache_invalidate code (cache sys);
            pending_hits := pending_hits sys;
            draws := draws sys |})
  end.

(** Modelled from the spec: disable, missing from the sources: a soft
    disable by the owner, with the cache entry invalidated as part of the
    write. *)
Definition disable (requester code : string) (sys : System)
  : (unit + error) * System :=
  match store_lookup code (store sys) with
  | None => (inr NotFound, sys)
  | Some m =>
      if negb (String.eqb requester (owner m)) then (inr Unauthorized, sys)
      else
        (inl tt,
         {| store := store_modify code set_disabled (store sys);
            cache := cache_invalidate code (cache sys);
            pending_hits := pending_hits sys;
            draws := draws sys |})
  end.

(** ** Executions *)

(** Modelled from the spec: the operations of section 6, the resolution
    of a code while the store is down, and the flush of section 5.  A
    write needs the store: while it is down it fails with StoreUnavailable
    and changes nothing, so it adds no step to an execution. *)
Inductive operation : Type :=
| OpCreate (req : CreateRequest)
| OpUpdate (requester code url : string) (expiry : option Z)
| OpDisable (requester code : string)
| OpResolve (code : string)
| OpResolveStoreDown (code : string)
| OpFlush.

Definition step (cfg : Config) (now : Z) (op : operation) (sys : System)
  : System :=
  match op with
  | OpCreate req => snd (create cfg now req sys)
  | OpUpdate requester code url expiry =>
      snd (update cfg now requester code url expiry sys)
  | OpDisable requester code => snd (disable requester code sys)
  | OpResolve code => snd (resolve cfg now code sys)
  | OpResolveStoreDown code => snd (resolve_cache_only cfg now code sys)
  | OpFlush => flush_hits sys
  end.

(** An execution: operations with the time at which each one runs. *)
Fixpoint run (cfg : Config) (trace : list (Z * operation)) (sys : System)
  : System :=
  match trace with
  | [] => sys
  | (now, op) :: trace' => run cfg trace' (step cfg now op sys)
  end.

(** ** Invariants *)

Definition codes (st : Store) : list string := map shortCode st.

(** No two records of the store carry the same code. *)
Definition unique_codes (st : Store) : Prop := NoDup (codes st).

(** A code identifies at most one target. *)
Definition at_most_one_target (st : Store) : Prop :=
  forall m1 m2 : LinkMapping,
    In m1 st -> In m2 st -> shortCode m1 = shortCode m2 ->
    targetURL m1 = targetURL m2.

(** Every cache entry repeats the target of the store record of its
    code, and that record is not disabled. *)
Definition cache_coherent (sys : System) : Prop :=
  forall e : CacheEntry,
    In e (cache sys) ->
    exists m, store_lookup (ce_shortCode e) (store sys) = Some m
              /\ targetURL m = ce_targetURL e
              /\ disabled m = false.

(** ** A deployment to run the model on *)

Definition digit (n : nat) : string :=
  String (ascii_of_nat (48 + n mod 10)) EmptyString.

(** Two-character codes over the digits: a code space of one hundred. *)
Definition two_digit_code (k : nat) : string :=
  (digit (k / 10) ++ digit k)%string.

Definition scheme_allowed (url : string) : bool :=
  String.prefix "https://" url || String.prefix "http://" url.

Definition demo : Config :=
  {| valid_url := scheme_allowed;
     candidate := two_digit_code;
     max_attempts := 3;
     cache_ttl := 60;
     cache_capacity := 2 |}.

(** The creation of the specification's example, and one that expires. *)
Definition example_request : CreateRequest :=
  {| req_targetURL := "https://example.com";
     req_customCode := Some "abc123";
     req_expiresAt := None;
     req_owner := "alice" |}.

Definition expiring_request : CreateRequest :=
  {| req_targetURL := "https://example.org";
     req_customCode := None;
     req_expiresAt := Some 10;
     req_owner := "bob" |}.

(** Creations, an update, resolutions and a disable, in time order. *)
Definition example_trace : list (Z * operation) :=
  [ (0, OpCreate example_request);
    (1, OpCreate expiring_request);
    (2, OpCreate expiring_request);
    (3, OpResolve "abc123");
    (4, OpUpdate "alice" "abc123" "https://example.net" None);
    (5, OpResolve "00");
    (6, OpDisable "alice" "abc123");
    (7, OpFlush) ].

End ShortLink.

(* ===================================================================== *)
(** * Facts about docs/conf.py                                            *)
(* ===================================================================== *)

Module ConfFacts.
Import Conf.

(** ** Induction on expressions, through the lists they nest *)
Section ExprInduction.
Variable P : expr -> Prop.
Hypothesis HStr : forall s, P (EStr s).
Hypothesis HBool : forall b, P (EBool b).
Hypothesis HList : forall es, Forall P es -> P (EList es).
Hypothesis HDict :
  forall kvs, Forall (fun kv => P (fst kv) /\ P (snd kv)) kvs -> P (EDict kvs).
Hypothesis HName : forall x, P (EName x).
Hypothesis HCall : forall f args, Forall P args -> P (ECall f args).

Fixpoint expr_nested_ind (e : expr) : P e :=
  match e with
  | EStr s => HStr s
  | EBool b => HBool b
  | EList es =>
      HList es
        ((fix all (l : list expr) : Forall P l :=
            match l with
            | [] => @List.Forall_nil _ P
            | x :: l' => @List.Forall_cons _ P x l' (expr_nested_ind x) (all l')
            end) es)
  | EDict kvs =>
      HDict kvs
        ((fix all (l : list (expr * expr))
            : Forall (fun kv => P (fst kv) /\ P (snd kv)) l :=
            match l with
            | [] => @List.Forall_nil _ _
            | (k, v) :: l' =>
                @List.Forall_cons _ (fun kv => P (fst kv) /\ P (snd kv)) (k, v) l'
                  (conj (expr_nested_ind k) (expr_nested_ind v)) (all l')
            end) kvs)
  | EName x => HName x
  | ECall f args =>
      HCall f args
        ((fix all (l : list expr) : Forall P l :=
            match l with
            | [] => @List.Forall_nil _ P
            | x :: l' => @List.Forall_cons _ P x l' (expr_nested_ind x) (all l')
            end) args)
  end.
End ExprInduction.

(** ** Literals evaluate without the world *)

(** What a literal evaluates to depends neither on the world nor on the
    namespace. *)
Lemma literal_eval_independent (e : expr) :
  is_literal e = true ->
  forall w1 env1 w2 env2, eval_expr w1 env1 e = eval_expr w2 env2 e.
Proof.
  induction e as [s | b | es IH | kvs IH | x | f args IH]
    using expr_nested_ind; simpl; intros Hlit w1 env1 w2 env2;
    try reflexivity; try discriminate.
  - assert (Hgo :
      (fix eval_list (es : list expr) : option (list value * list event) :=
         match es with
         | [] => Some ([], [])
         | e1 :: es' =>
             match eval_expr w1 env1 e1 with
             | None => None
             | Some (v, t1) =>
                 match eval_list es' with
                 | None => None
                 | Some (vs, t2) => Some (v :: vs, t1 ++ t2)
                 end
             end
         end) es =
      (fix eval_list (es : list expr) : option (list value * list event) :=
         match es with
         | [] => Some ([], [])
         | e1 :: es' =>
             match eval_expr w2 env2 e1 with
             | None => None
             | Some (v, t1) =>
                 match eval_list es' with
                 | None => None
                 | Some (vs, t2) => Some (v :: vs, t1 ++ t2)
                 end
             end
         end) es).
    { induction IH as [| e1 es' He1 _ IHes]; [reflexivity |].
      simpl in Hlit. apply andb_true_iff in Hlit as [H1 H2].
      rewrite (He1 H1 w1 env1 w2 env2), (IHes H2). reflexivity. }
    rewrite Hgo. reflexivity.
  - assert (Hgo : forall acc,
      (fix eval_items (kvs : list (expr * expr)) (acc : list (value * value))
         : option (list (value * value) * list event) :=
         match kvs with
         | [] => Some (acc, [])
         | (ek, ev) :: kvs' =>
             match eval_expr w1 env1 ek with
             | None => None
             | Some (k, t1) =>
                 match eval_expr w1 env1 ev with
                 | None => None
                 | Some (v, t2) =>
                     if hashable k then
                       match eval_items kvs' (dict_set k v acc) with
                       | None => None
                       | Some (d, t3) => Some (d, t1 ++ t2 ++ t3)
                       end
                     else None
                 end
             end
         end) kvs acc =
      (fix eval_items (kvs : list (expr * expr)) (acc : list (value * value))
         : option (list (value * value) * list event) :=
         match kvs with
         | [] => Some (acc, [])
         | (ek, ev) :: kvs' =>
             match eval_expr w2 env2 ek with
             | None => None
             | Some (k, t1) =>
                 match eval_expr w2 env2 ev with
                 | None => None
                 | Some (v, t2) =>
                     if hashable k then
                       match eval_items kvs' (dict_set k v acc) with
                       | None => None
                       | Some (d, t3) => Some (d, t1 ++ t2 ++ t3)
                       end
                     else None
                 end
             end
         end) kvs acc).
    { induction IH as [| [ek ev] kvs' [Hk Hv] _ IHkvs]; intros acc;
        [reflexivity |].
      simpl in Hlit. apply andb_true_iff in Hlit as [H1 H2].
      apply andb_true_iff in H1 as [H1k H1v]. simpl in Hk, Hv.
      rewrite (Hk H1k w1 env1 w2 env2), (Hv H1v w1 env1 w2 env2).
      destruct (eval_expr w2 env2 ek) as [[k t1] |]; [| reflexivity].
      destruct (eval_expr w2 env2 ev) as [[v t2] |]; [| reflexivity].
      destruct (hashable k); [| reflexivity].
      rewrite (IHkvs H2). reflexivity. }
    rewrite Hgo. reflexivity.
Qed.

Lemma dict_set_const (k v : value) (items : list (value * value)) :
  is_const_value k = true -> is_const_value v = true ->
  forallb (fun kv => is_const_value (fst kv) && is_const_value (snd kv)) items = true ->
  forallb (fun kv => is_const_value (fst kv) && is_const_value (snd kv))
          (dict_set k v items) = true.
Proof.
  intros Hk Hv. induction items as [| [k' u] items IH]; simpl; intros H.
  - rewrite Hk, Hv. reflexivity.
  - apply andb_true_iff in H as [H1 H2].
    apply andb_true_iff in H1 as [H1k H1u]. simpl in H1k, H1u.
    destruct (key_eqb k k'); simpl.
    + rewrite H1k, Hv, H2. reflexivity.
    + rewrite H1k, H1u, (IH H2). reflexivity.
Qed.

(** A literal evaluates to a constant value and causes no event. *)
Lemma literal_eval_pure (e : expr) :
  is_literal e = true ->
  forall w env v t,
    eval_expr w env e = Some (v, t) -> t = [] /\ is_const_value v = true.
Proof.
  induction e as [s | b | es IH | kvs IH | x | f args IH]
    using expr_nested_ind; simpl; intros Hlit w env v t Hev;
    try discriminate.
  - inversion Hev; subst. split; reflexivity.
  - inversion Hev; subst. split; reflexivity.
  - match type of Hev with
    | match ?X with _ => _ end = _ => destruct X as [[vs t'] |] eqn:E
    end; [| discriminate].
    inversion Hev; subst; clear Hev. simpl.
    revert vs t Hlit E.
    induction IH as [| e1 es' He1 _ IHes]; intros vs t Hlit E.
    + inversion E; subst. split; reflexivity.
    + simpl in Hlit. apply andb_true_iff in Hlit as [H1 H2].
      destruct (eval_expr w env e1) as [[v1 t1] |] eqn:E1; [| discriminate].
      match type of E with
      | match ?X with _ => _ end = _ => destruct X as [[vs' t2] |] eqn:E2
      end; [| discriminate].
      inversion E; subst; clear E.
      destruct (He1 H1 w env v1 t1 E1) as [-> Hv1].
      destruct (IHes vs' t2 H2 eq_refl) as [-> Hvs].
      simpl. rewrite Hv1, Hvs. split; reflexivity.
  - match type of Hev with
    | match ?X with _ => _ end = _ => destruct X as [[d t'] |] eqn:E
    end; [| discriminate].
    inversion Hev; subst; clear Hev. simpl.
    assert (Hacc :
      forallb (fun kv => is_const_value (fst kv) && is_const_value (snd kv))
              (@nil (value * value)) = true) by reflexivity.
    revert Hacc E. generalize (@nil (value * value)) as acc.
    revert d t Hlit.
    induction IH as [| [ek ev] kvs' [Hk Hv] _ IHkvs]; intros d t Hlit acc Hacc E.
    + inversion E; subst. split; [reflexivity | exact Hacc].
    + simpl in Hlit. apply andb_true_iff in Hlit as [H1 H2].
      apply andb_true_iff in H1 as [H1k H1v]. simpl in Hk, Hv, H1k, H1v.
      destruct (eval_expr w env ek) as [[k t1] |] eqn:Ek; [| discriminate].
      destruct (eval_expr w env ev) as [[u t2] |] eqn:Ev; [| discriminate].
      destruct (hashable k); [| discriminate].
      match type of E with
      | match ?X with _ => _ end = _ => destruct X as [[d' t3] |] eqn:E3
      end; [| discriminate].
      inversion E; subst; clear E.
      destruct (Hk H1k w env k t1 Ek) as [-> Hck].
      destruct (Hv H1v w env u t2 Ev) as [-> Hcu].
      destruct (IHkvs d t3 H2 (dict_set k u acc)
                  (dict_set_const k u acc Hck Hcu Hacc) E3) as [-> Hd].
      split; [reflexivity | exact Hd].
Qed.

(** ** Modules of constant bindings *)

Lemma env_set_const (x : string) (v : value) (env : Env) :
  is_const_value v = true -> const_env env = true ->
  const_env (env_set x v env) = true.
Proof.
  unfold const_env. intros Hv.
  induction env as [| [y u] env IH]; simpl; intros H.
  - rewrite Hv. reflexivity.
  - apply andb_true_iff in H as [H1 H2]. simpl in H1.
    destruct (String.eqb x y); simpl.
    + rewrite Hv, H2. reflexivity.
    + rewrite H1, (IH H2). reflexivity.
Qed.

(** A body of constant bindings runs the same way in every world. *)
Lemma const_module_world_independent (body : list stmt) :
  forallb is_const_binding body = true ->
  forall w1 w2 st, exec_stmts w1 st body = exec_stmts w2 st body.
Proof.
  induction body as [| s body IH]; simpl; intros Hc w1 w2 st; [reflexivity |].
  apply andb_true_iff in Hc as [Hs Hb].
  destruct s as [x e | e | m | f ps b]; simpl in Hs; try discriminate.
  destruct st as [env tr]. simpl.
  rewrite (literal_eval_independent e Hs w1 env w2 env).
  destruct (eval_expr w2 env e) as [[v t] |]; [| reflexivity].
  apply IH. exact Hb.
Qed.

(** A body of constant bindings adds no event and binds only constants. *)
Lemma const_module_pure (body : list stmt) :
  forallb is_const_binding body = true ->
  forall w env tr env' tr',
    exec_stmts w (env, tr) body = Some (env', tr') ->
    tr' = tr /\ (const_env env = true -> const_env env' = true).
Proof.
  induction body as [| s body IH]; simpl; intros Hc w env tr env' tr' Hx.
  - inversion Hx; subst. split; [reflexivity | tauto].
  - apply andb_true_iff in Hc as [Hs Hb].
    destruct s as [x e | e | m | f ps b]; simpl in Hs; try discriminate.
    simpl in Hx.
    destruct (eval_expr w env e) as [[v t] |] eqn:Ee; [| discriminate].
    destruct (literal_eval_pure e Hs w env v t Ee) as [-> Hv].
    destruct (IH Hb w _ _ env' tr' Hx) as [Htr Henv].
    split.
    + rewrite Htr. apply app_nil_r.
    + intros Hce. apply Henv. apply env_set_const; assumption.
Qed.

(** ** The module *)

Lemma conf_py_constant : forallb is_const_binding conf_py = true.
Proof. reflexivity. Qed.

Lemma conf_py_evaluates (w : World) :
  exec_module w conf_py = Some (conf_namespace, []).
Proof.
  unfold exec_module.
  rewrite (const_module_world_independent conf_py conf_py_constant w silent_world).
  reflexivity.
Qed.

(** The evaluator does tell worlds apart: a module that calls out runs
    differently in the two, and its call shows in the trace. *)
Lemma probe_module_depends_on_world :
  forallb is_const_binding probe_module = false /\
  exec_module silent_world probe_module = None /\
  exec_module chatty_world probe_module =
    Some ([("home", VStr "os.getenv")], [EvCall "os.getenv" [VStr "HOME"]]).
Proof. repeat split; reflexivity. Qed.

(** C1.  The module is a build configuration and nothing else: each of its
    fourteen statements assigns a literal to a Sphinx setting; it holds no
    function definition and no import; in every world its evaluation
    succeeds, causes no external call (no I/O) and leaves a namespace of
    constants: strings, and lists and dicts of literals. *)
Theorem conf_is_constant_configuration :
  forallb is_const_binding conf_py = true /\
  existsb is_def conf_py = false /\
  existsb is_import conf_py = false /\
  bound_names conf_py =
    [ "project"; "copyright"; "author"; "version"; "extensions";
      "templates_path"; "exclude_patterns"; "html_theme";
      "html_static_path"; "html_css_files"; "html_js_files";
      "source_suffix"; "myst_enable_extensions"; "html_context" ] /\
  forall w : World,
    exists env : Env,
      exec_module w conf_py = Some (env, []) /\
      map fst env = bound_names conf_py /\
      const_env env = true.
Proof.
  split; [reflexivity |]. split; [reflexivity |]. split; [reflexivity |].
  split; [reflexivity |].
  intros w. exists conf_namespace. split; [apply conf_py_evaluates |].
  split; [reflexivity |].
  destruct (const_module_pure conf_py conf_py_constant w [] [] conf_namespace []
              (conf_py_evaluates w)) as [_ Hconst].
  apply Hconst. reflexivity.
Qed.

(** C8.  Evaluation is deterministic and independent of its input: two
    evaluations, in any two worlds, leave the same namespace, and neither
    makes an external call. *)
Theorem conf_evaluation_deterministic :
  forall w1 w2 : World,
    exec_module w1 conf_py = exec_module w2 conf_py /\
    (forall x : string, module_get w1 conf_py x = module_get w2 conf_py x) /\
    exists env : Env, exec_module w1 conf_py = Some (env, []).
Proof.
  intros w1 w2.
  assert (H : exec_module w1 conf_py = exec_module w2 conf_py).
  { unfold exec_module.
    apply const_module_world_independent. exact conf_py_constant. }
  split; [exact H |]. split.
  - intros x. unfold module_get. rewrite H. reflexivity.
  - exists conf_namespace. apply conf_py_evaluates.
Qed.

(** C9.  Exactly three Sphinx extensions are enabled: myst_parser,
    sphinx_rtd_theme and sphinx_toolbox.collapse; sphinx_togglebutton,
    commented out in the source, is not in the list. *)
Theorem extensions_exactly_three :
  forall w : World,
    module_get w conf_py "extensions" =
      Some (VList [ VStr "myst_parser"; VStr "sphinx_rtd_theme";
                    VStr "sphinx_toolbox.collapse" ]) /\
    extensions = ["myst_parser"; "sphinx_rtd_theme"; "sphinx_toolbox.collapse"] /\
    length extensions = 3%nat /\
    ~ In "sphinx_togglebutton" extensions.
Proof.
  intros w. split.
  - unfold module_get. rewrite conf_py_evaluates. reflexivity.
  - split; [reflexivity |]. split; [reflexivity |].
    simpl. intros [H | [H | [H | []]]]; discriminate.
Qed.

(** Suffixes of equal length cannot both end a path. *)
Lemma txt_is_not_rst (path : string) :
  ends_with ".txt" path = true -> ends_with ".rst" path = false.
Proof.
  unfold ends_with. simpl String.length.
  intros H. apply andb_true_iff in H as [_ H].
  apply String.eqb_eq in H. rewrite H. apply andb_false_r.
Qed.

(** C10.  [source_suffix] gives the suffix .txt the markdown parser, so
    every path that ends with .txt is read as markdown;
    requirements.txt ends with .txt and would be the document
    requirements, but it is one of [exclude_patterns], a pattern without
    glob character, so that every build excludes it, whatever the other
    patterns of the build and however patterns with glob characters are
    matched. *)
Theorem requirements_txt_excluded
  (matches : string -> string -> bool)
  (Hliteral : forall pattern : string,
      glob_free pattern = true -> matches pattern pattern = true)
  (others : list string) :
  (forall w : World,
     module_get w conf_py "source_suffix" = Some (vstr_dict source_suffix) /\
     module_get w conf_py "exclude_patterns" = Some (vstr_list exclude_patterns)) /\
  assoc ".txt" source_suffix = Some "markdown" /\
  (forall path : string,
     ends_with ".txt" path = true ->
     parser_for source_suffix path = Some "markdown") /\
  ends_with ".txt" "requirements.txt" = true /\
  path2doc source_suffix "requirements.txt" = Some "requirements" /\
  has_docname source_suffix "requirements.txt" = true /\
  In "requirements.txt" exclude_patterns /\
  forallb glob_free exclude_patterns = true /\
  excluded matches (exclude_paths others) "requirements.txt" = true.
Proof.
  split.
  { intros w. unfold module_get. rewrite conf_py_evaluates.
    split; reflexivity. }
  split; [reflexivity |]. split.
  { intros path H. unfold source_suffix. simpl parser_for.
    rewrite (txt_is_not_rst path H), H. reflexivity. }
  split; [reflexivity |]. split; [reflexivity |]. split; [reflexivity |].
  split.
  { simpl. tauto. }
  split; [reflexivity |].
  unfold excluded. apply existsb_exists.
  exists "requirements.txt". split; [simpl; tauto |].
  apply existsb_exists. exists "requirements.txt". split.
  - unfold exclude_paths. apply in_or_app. left. simpl. tauto.
  - apply Hliteral. reflexivity.
Qed.

(** With the literal test and the static path of the HTML builder. *)
Lemma requirements_txt_excluded_example :
  excluded literal_match (exclude_paths html_static_path) "requirements.txt"
  = true.
Proof.
  exact (proj2 (proj2 (proj2 (proj2 (proj2 (proj2 (proj2 (proj2
           (requirements_txt_excluded literal_match
              (fun pattern _ => String.eqb_refl pattern)
              html_static_path))))))))).
Defined.

(** The walk at work: files below an excluded directory are out, a file
    that no pattern reaches is in, and a bare suffix names no document. *)
Lemma discovery_examples :
  excluded literal_match (exclude_paths html_static_path) "_build/notes.txt" = true /\
  excluded literal_match (exclude_paths html_static_path) "_templates/layout.txt" = true /\
  excluded literal_match (exclude_paths html_static_path) "_static/css/custom.css" = true /\
  excluded literal_match (exclude_paths html_static_path) "guide/notes.txt" = false /\
  dirs_above "a/b/c.txt" = ["a"; "a/b"] /\
  has_docname source_suffix "guide/notes.txt" = true /\
  has_docname source_suffix ".txt" = false /\
  has_docname source_suffix "Makefile" = false.
Proof. repeat split; reflexivity. Qed.

(** C7.  The project name and the GitHub repository identifier are the
    only domain signal: [project] is Go-Short-Link, the [html_context]
    carries the user fanonwue and the repository go-short-link, and among
    all bindings only [project] and, inside [html_context], the item
    [github_repo] refer to short links. *)
Theorem domain_signal_is_project_and_repository :
  forall w : World,
    exists (env : Env) (items : list (value * value)),
      exec_module w conf_py = Some (env, []) /\
      env_get "project" env = Some (VStr "Go-Short-Link") /\
      env_get "html_context" env = Some (VDict items) /\
      dict_get (VStr "github_user") items = Some (VStr "fanonwue") /\
      dict_get (VStr "github_repo") items = Some (VStr "go-short-link") /\
      domain_bindings env = ["project"; "html_context"] /\
      domain_items (VDict items) = [VStr "github_repo"].
Proof.
  intros w. exists conf_namespace.
  exists [ (VStr "display_github", VBool true);
           (VStr "github_user", VStr "fanonwue");
           (VStr "github_repo", VStr "go-short-link");
           (VStr "github_version", VStr "master");
           (VStr "conf_py_path", VStr "/docs/") ].
  split; [apply conf_py_evaluates |].
  repeat split; reflexivity.
Qed.

(** C2, as stated, fails: the module binds [project], which is project
    information, none of the four kinds; so not every binding is of one of
    the kinds the description enumerates. *)
Lemma settings_beyond_the_four_kinds :
  ~ (forall x : string,
       In x (bound_names conf_py) ->
       exists k : setting_kind,
         kind_of x setting_kinds = Some k /\ is_described_kind k = true).
Proof.
  intros H. destruct (H "project") as [k [Hk Hd]].
  - simpl. tauto.
  - simpl in Hk. inversion Hk; subst. discriminate.
Qed.

(** C2, amended.  The module sets the four kinds of settings of the
    description, with precisely these values: the theme (sphinx_rtd_theme,
    with its static assets), the extensions ([extensions] and
    [myst_enable_extensions]), the file associations (.rst read as
    restructuredtext, .txt and .md as markdown, with the template and
    exclude paths) and the GitHub link metadata ([html_context] with
    [display_github] true); besides them it sets the project information
    ([project], [copyright], [author], [version]), and nothing else. *)
Theorem settings_by_kind :
  forall w : World,
    module_get w conf_py "html_theme" = Some (VStr "sphinx_rtd_theme") /\
    module_get w conf_py "extensions" = Some (vstr_list extensions) /\
    module_get w conf_py "myst_enable_extensions"
      = Some (vstr_list myst_enable_extensions) /\
    (exists items,
       module_get w conf_py "source_suffix" = Some (VDict items) /\
       dict_get (VStr ".rst") items = Some (VStr "restructuredtext") /\
       dict_get (VStr ".txt") items = Some (VStr "markdown") /\
       dict_get (VStr ".md") items = Some (VStr "markdown") /\
       length items = 3%nat) /\
    (exists items,
       module_get w conf_py "html_context" = Some (VDict items) /\
       dict_get (VStr "display_github") items = Some (VBool true)) /\
    names_of_kind Theme conf_py
      = ["html_theme"; "html_static_path"; "html_css_files"; "html_js_files"] /\
    names_of_kind Extensions conf_py = ["extensions"; "myst_enable_extensions"] /\
    names_of_kind FileAssociations conf_py
      = ["templates_path"; "exclude_patterns"; "source_suffix"] /\
    names_of_kind GitHubMetadata conf_py = ["html_context"] /\
    names_of_kind ProjectInformation conf_py
      = ["project"; "copyright"; "author"; "version"] /\
    (forall x : string,
       In x (bound_names conf_py) ->
       exists k : setting_kind,
         kind_of x setting_kinds = Some k /\
         (is_described_kind k = true \/ k = ProjectInformation)).
Proof.
  intros w. unfold module_get. rewrite conf_py_evaluates.
  split; [reflexivity |]. split; [reflexivity |]. split; [reflexivity |].
  split.
  { eexists. split; [reflexivity |]. repeat split; reflexivity. }
  split.
  { eexists. split; reflexivity. }
  split; [reflexivity |]. split; [reflexivity |]. split; [reflexivity |].
  split; [reflexivity |]. split; [reflexivity |].
  intros x Hx. simpl in Hx.
  repeat (destruct Hx as [<- | Hx];
          [eexists; split; [reflexivity | first [left; reflexivity | right; reflexivity]] |]).
  contradiction.
Qed.

End ConfFacts.

(* ===================================================================== *)
(** * Facts about the short-link service                                  *)
(* ===================================================================== *)

Module ShortLinkFacts.
Import ShortLink.

Local Open Scope Z_scope.

(** ** The store *)

Lemma store_lookup_some (code : string) (st : Store) (m : LinkMapping) :
  store_lookup code st = Some m -> In m st /\ shortCode m = code.
Proof.
  unfold store_lookup. intros H. apply find_some in H as [Hin Hc].
  split; [exact Hin |]. unfold has_code in Hc.
  apply String.eqb_eq in Hc. symmetry. exact Hc.
Qed.

Lemma store_lookup_none (code : string) (st : Store) :
  store_lookup code st = None <-> ~ In code (codes st).
Proof.
  unfold store_lookup, codes. induction st as [| m st IH]; simpl.
  - tauto.
  - unfold has_code at 1. destruct (String.eqb code (shortCode m)) eqn:E.
    + apply String.eqb_eq in E. split; [discriminate |].
      intros H. exfalso. apply H. left. symmetry. exact E.
    + apply String.eqb_neq in E. rewrite IH. split.
      * intros H [H1 | H1]; [apply E; symmetry; exact H1 | exact (H H1)].
      * intros H H1. apply H. right. exact H1.
Qed.

Lemma store_lookup_app_found (code : string) (st more : Store) (m : LinkMapping) :
  store_lookup code st = Some m -> store_lookup code (st ++ more) = Some m.
Proof.
  unfold store_lookup. induction st as [| x st IH]; simpl; [discriminate |].
  destruct (has_code code x); [tauto | exact IH].
Qed.

Lemma store_lookup_app_fresh (code : string) (st : Store) (m : LinkMapping) :
  store_lookup code st = None ->
  store_lookup code (st ++ [m]) = if has_code code m then Some m else None.
Proof.
  unfold store_lookup. induction st as [| x st IH]; simpl; [reflexivity |].
  destruct (has_code code x); [discriminate | exact IH].
Qed.

Lemma store_create_inl (m : LinkMapping) (st st' : Store) :
  store_create m st = inl st' ->
  st' = st ++ [m] /\ store_lookup (shortCode m) st = None.
Proof.
  unfold store_create. destruct (store_lookup (shortCode m) st) eqn:E;
    [discriminate |].
  intros H. inversion H. split; reflexivity.
Qed.

Section Modify.
Variable code : string.
Variable f : LinkMapping -> LinkMapping.
Hypothesis f_keeps_code : forall m, shortCode (f m) = shortCode m.

Lemma codes_store_modify (st : Store) :
  codes (store_modify code f st) = codes st.
Proof.
  unfold codes, store_modify. induction st as [| m st IH]; simpl;
    [reflexivity |].
  rewrite IH. destruct (has_code code m); [rewrite f_keeps_code |];
    reflexivity.
Qed.

Lemma store_lookup_modify (c : string) (st : Store) :
  store_lookup c (store_modify code f st) =
  match store_lookup c st with
  | Some m => Some (if has_code code m then f m else m)
  | None => None
  end.
Proof.
  unfold store_lookup, store_modify. induction st as [| m st IH]; simpl;
    [reflexivity |].
  assert (Hc : has_code c (if has_code code m then f m else m) = has_code c m).
  { unfold has_code. destruct (String.eqb code (shortCode m));
      [rewrite f_keeps_code |]; reflexivity. }
  rewrite Hc. destruct (has_code c m); [reflexivity | exact IH].
Qed.
End Modify.

Lemma set_target_keeps_code url expiry m :
  shortCode (set_target url expiry m) = shortCode m.
Proof. reflexivity. Qed.

Lemma set_disabled_keeps_code m : shortCode (set_disabled m) = shortCode m.
Proof. reflexivity. Qed.

Lemma add_hit_keeps_code m : shortCode (add_hit m) = shortCode m.
Proof. reflexivity. Qed.

Lemma codes_flush (pending : list string) (st : Store) :
  codes (fold_right (fun code st => store_modify code add_hit st) st pending)
  = codes st.
Proof.
  induction pending as [| c pending IH]; simpl; [reflexivity |].
  rewrite (codes_store_modify c add_hit add_hit_keeps_code). exact IH.
Qed.

(** Unique codes: one record per code, hence one target per code. *)
Lemma unique_codes_one_record (st : Store) (m1 m2 : LinkMapping) :
  unique_codes st -> In m1 st -> In m2 st ->
  shortCode m1 = shortCode m2 -> m1 = m2.
Proof.
  unfold unique_codes, codes. induction st as [| m st IH]; simpl;
    [tauto |].
  intros Hnd H1 H2 Hc. inversion Hnd as [| ? ? Hnotin Hnd']; subst.
  destruct H1 as [-> | H1], H2 as [-> | H2].
  - reflexivity.
  - exfalso. apply Hnotin. apply list_elem_of_In.
    rewrite Hc. apply in_map. exact H2.
  - exfalso. apply Hnotin. apply list_elem_of_In.
    rewrite <- Hc. apply in_map. exact H1.
  - apply IH; assumption.
Qed.

Lemma unique_codes_at_most_one_target (st : Store) :
  unique_codes st -> at_most_one_target st.
Proof.
  intros Hu m1 m2 H1 H2 Hc.
  rewrite (unique_codes_one_record st m1 m2 Hu H1 H2 Hc). reflexivity.
Qed.

(** ** One operation: the codes of the store only grow, and stay unique *)

Lemma create_codes (cfg : Config) (now : Z) (req : CreateRequest) (sys : System) :
  codes (store (snd (create cfg now req sys))) = codes (store sys) \/
  exists code,
    fst (create cfg now req sys) = inl code /\
    ~ In code (codes (store sys)) /\
    codes (store (snd (create cfg now req sys))) = codes (store sys) ++ [code].
Proof.
  unfold create.
  destruct (negb (valid_url cfg (req_targetURL req))); [left; reflexivity |].
  destruct (negb (valid_expiry now (req_expiresAt req))); [left; reflexivity |].
  match goal with
  | |- context [let '(allocated, n) := ?X in _] =>
      destruct X as [[code | e] n]
  end; [| left; reflexivity].
  match goal with
  | |- context [store_create ?m ?st] =>
      destruct (store_create m st) as [st' | e] eqn:E
  end; [| left; reflexivity].
  apply store_create_inl in E as [-> Hfresh]. simpl in Hfresh.
  right. exists code. simpl. split; [reflexivity |].
  split; [apply store_lookup_none; exact Hfresh |].
  unfold codes. rewrite map_app. reflexivity.
Qed.

(** A resolution writes nothing to the store. *)
Lemma resolve_store (cfg : Config) (now : Z) (code : string) (sys : System) :
  store (snd (resolve cfg now code sys)) = store sys.
Proof.
  unfold resolve.
  destruct (cache_get cfg now code (cache sys)) as [[e |] c]; [reflexivity |].
  destruct (store_lookup code (store sys)) as [m |]; [| reflexivity].
  destruct (classify now m); reflexivity.
Qed.

Lemma step_codes (cfg : Config) (now : Z) (op : operation) (sys : System) :
  codes (store (step cfg now op sys)) = codes (store sys) \/
  exists code,
    ~ In code (codes (store sys)) /\
    codes (store (step cfg now op sys)) = codes (store sys) ++ [code].
Proof.
  destruct op as [req | requester code url expiry | requester code | code
                  | code |];
    simpl.
  - destruct (create_codes cfg now req sys) as [H | [code [_ H]]];
      [left; exact H | right; exists code; exact H].
  - left. unfold update.
    destruct (store_lookup code (store sys)) as [m |]; [| reflexivity].
    destruct (negb (String.eqb requester (owner m))); [reflexivity |].
    destruct (negb (valid_url cfg url)); [reflexivity |].
    destruct (negb (valid_expiry now expiry)); [reflexivity |].
    simpl. apply codes_store_modify. apply set_target_keeps_code.
  - left. unfold disable.
    destruct (store_lookup code (store sys)) as [m |]; [| reflexivity].
    destruct (negb (String.eqb requester (owner m))); [reflexivity |].
    simpl. apply codes_store_modify. apply set_disabled_keeps_code.
  - left. rewrite resolve_store. reflexivity.
  - left. unfold resolve_cache_only.
    destruct (cache_get cfg now code (cache sys)) as [[e |] c]; reflexivity.
  - left. simpl. apply codes_flush.
Qed.

Lemma step_unique (cfg : Config) (now : Z) (op : operation) (sys : System) :
  unique_codes (store sys) -> unique_codes (store (step cfg now op sys)).
Proof.
  unfold unique_codes. intros Hu.
  destruct (step_codes cfg now op sys) as [-> | [code [Hfresh ->]]];
    [exact Hu |].
  apply NoDup_app. split; [exact Hu |]. split.
  - intros x Hx Hx'. apply list_elem_of_In in Hx, Hx'.
    destruct Hx' as [<- | []]. exact (Hfresh Hx).
  - apply NoDup_singleton.
Qed.

Lemma run_codes (cfg : Config) (trace : list (Z * operation)) (sys : System) :
  unique_codes (store sys) ->
  unique_codes (store (run cfg trace sys)) /\
  exists later, codes (store (run cfg trace sys)) = codes (store sys) ++ later.
Proof.
  revert sys. induction trace as [| [now op] trace IH]; simpl; intros sys Hu.
  - split; [exact Hu |]. exists []. symmetry. apply app_nil_r.
  - destruct (IH (step cfg now op sys) (step_unique cfg now op sys Hu))
      as [Hu' [later Hl]].
    split; [exact Hu' |].
    destruct (step_codes cfg now op sys) as [Hs | [code [_ Hs]]];
      rewrite Hs in Hl.
    + exists later. exact Hl.
    + exists (code :: later). rewrite Hl, <- app_assoc. reflexivity.
Qed.

(** ** The generator *)

Lemma generate_from_spec (cfg : Config) (st : Store) (attempts k : nat) :
  exists r n,
    generate_from cfg st k attempts = (r, n) /\
    (n <= attempts)%nat /\
    (forall i, (i + 1 < n)%nat ->
               store_lookup (candidate cfg (k + i)) st <> None) /\
    match r with
    | inl code =>
        (1 <= n)%nat /\ code = candidate cfg (k + n - 1) /\
        store_lookup code st = None
    | inr e =>
        e = ExhaustionError /\ n = attempts /\
        forall i, (i < n)%nat ->
                  store_lookup (candidate cfg (k + i)) st <> None
    end.
Proof.
  revert k. induction attempts as [| attempts IH]; intros k; simpl.
  - exists (inr ExhaustionError), O. split; [reflexivity |].
    split; [lia |]. split; [intros i Hi; lia |].
    split; [reflexivity |]. split; [reflexivity |]. intros i Hi. lia.
  - destruct (store_lookup (candidate cfg k) st) as [m |] eqn:E.
    + destruct (IH (S k)) as [r [n [Hg [Hn [Hprev Hr]]]]].
      rewrite Hg. exists r, (S n). split; [reflexivity |].
      split; [lia |].
      assert (Hk : store_lookup (candidate cfg (k + 0)) st <> None).
      { rewrite Nat.add_0_r, E. discriminate. }
      split.
      * intros [| i] Hi; [exact Hk |].
        replace (k + S i)%nat with (S k + i)%nat by lia.
        apply Hprev. lia.
      * destruct r as [code | e].
        -- destruct Hr as [H1 [H2 H3]]. split; [lia |].
           split; [| exact H3].
           rewrite H2. f_equal. lia.
        -- destruct Hr as [H1 [H2 H3]]. split; [exact H1 |].
           split; [lia |].
           intros [| i] Hi; [exact Hk |].
           replace (k + S i)%nat with (S k + i)%nat by lia.
           apply H3. lia.
    + exists (inl (candidate cfg k)), 1%nat. split; [reflexivity |].
      split; [lia |]. split; [intros i Hi; lia |].
      split; [lia |]. split; [| exact E].
      f_equal. lia.
Qed.

(** C6.  The collision-retry loop of the Code Generator terminates on
    every store and from every draw: it returns after at most
    [max_attempts] draws, each draw before the last having collided, with
    either a code that the store does not hold or ExhaustionError after
    exactly [max_attempts] collisions; on a saturated code space, where
    every candidate is taken, the result is ExhaustionError. *)
Theorem generator_retry_is_bounded (cfg : Config) (st : Store) (k : nat) :
  exists (r : string + error) (n : nat),
    generate cfg st k = (r, n) /\
    (n <= max_attempts cfg)%nat /\
    (forall i, (i + 1 < n)%nat ->
               store_lookup (candidate cfg (k + i)) st <> None) /\
    match r with
    | inl code =>
        (1 <= n)%nat /\ code = candidate cfg (k + n - 1) /\
        store_lookup code st = None
    | inr e =>
        e = ExhaustionError /\ n = max_attempts cfg /\
        forall i, (i < n)%nat ->
                  store_lookup (candidate cfg (k + i)) st <> None
    end /\
    ((forall i, (i < max_attempts cfg)%nat ->
                store_lookup (candidate cfg (k + i)) st <> None) ->
     r = inr ExhaustionError).
Proof.
  unfold generate.
  destruct (generate_from_spec cfg st (max_attempts cfg) k)
    as [r [n [Hg [Hn [Hprev Hr]]]]].
  exists r, n. split; [exact Hg |]. split; [exact Hn |].
  split; [exact Hprev |]. split; [exact Hr |].
  intros Hsat. destruct r as [code | e].
  - destruct Hr as [H1 [H2 H3]]. exfalso.
    apply (Hsat (n - 1)%nat); [lia |].
    replace (k + (n - 1))%nat with (k + n - 1)%nat by lia.
    rewrite <- H2. exact H3.
  - destruct Hr as [-> _]. reflexivity.
Qed.

(** ** The cache *)

Lemma cache_invalidate_in (code : string) (c : Cache) (e : CacheEntry) :
  In e (cache_invalidate code c) -> In e c /\ ce_shortCode e <> code.
Proof.
  unfold cache_invalidate. intros H. apply filter_In in H as [Hin Hc].
  split; [exact Hin |]. unfold caches in Hc.
  apply negb_true_iff, String.eqb_neq in Hc. congruence.
Qed.

Lemma cache_find_some (code : string) (c : Cache) (e : CacheEntry) :
  cache_find code c = Some e -> In e c /\ ce_shortCode e = code.
Proof.
  unfold cache_find. intros H. apply find_some in H as [Hin Hc].
  split; [exact Hin |]. unfold caches in Hc.
  apply String.eqb_eq in Hc. symmetry. exact Hc.
Qed.

Lemma firstn_in {A : Type} (n : nat) (l : list A) (x : A) :
  In x (firstn n l) -> In x l.
Proof.
  revert l. induction n as [| n IH]; intros [| y l]; simpl; try tauto.
  intros [H | H]; [left; exact H | right; apply IH; exact H].
Qed.

Lemma cache_put_in (cfg : Config) (e0 : CacheEntry) (c : Cache) (e : CacheEntry) :
  In e (cache_put cfg e0 c) -> e = e0 \/ In e c.
Proof.
  unfold cache_put. intros H. apply firstn_in in H. simpl in H.
  destruct H as [H | H]; [left; symmetry; exact H |].
  right. apply cache_invalidate_in in H. tauto.
Qed.

Lemma cache_get_spec (cfg : Config) (now : Z) (code : string) (c : Cache) :
  (forall e, In e (snd (cache_get cfg now code c)) -> In e c) /\
  (forall e, fst (cache_get cfg now code c) = Some e ->
             In e c /\ ce_shortCode e = code).
Proof.
  unfold cache_get. destruct (cache_find code c) as [e0 |] eqn:E.
  - apply cache_find_some in E as [Hin Hc].
    destruct (cache_live cfg now e0); simpl; split.
    + intros e [<- | H]; [exact Hin |].
      apply cache_invalidate_in in H. tauto.
    + intros e H. inversion H; subst. split; [exact Hin | reflexivity].
    + intros e H. apply cache_invalidate_in in H. tauto.
    + discriminate.
  - simpl. split; [tauto | discriminate].
Qed.

(** A coherent cache holds no entry for a code the store does not know. *)
Lemma coherent_miss (cfg : Config) (now : Z) (code : string) (sys : System) :
  cache_coherent sys -> store_lookup code (store sys) = None ->
  cache_get cfg now code (cache sys) = (None, cache sys).
Proof.
  intros Hco Hnone. unfold cache_get.
  destruct (cache_find code (cache sys)) as [e |] eqn:E; [| reflexivity].
  apply cache_find_some in E as [Hin Hc].
  destruct (Hco e Hin) as [m [Hm _]]. rewrite Hc, Hnone in Hm. discriminate.
Qed.

(** ** Cache coherence is an invariant *)

(** A write that keeps codes and targets keeps the cache coherent. *)
Lemma coherent_modify_same_target (code : string)
  (f : LinkMapping -> LinkMapping) (st : Store) (c : Cache)
  (pending : list string) (n : nat) :
  (forall m, shortCode (f m) = shortCode m) ->
  (forall m, targetURL (f m) = targetURL m) ->
  (forall m, disabled (f m) = disabled m) ->
  cache_coherent {| store := st; cache := c; pending_hits := pending; draws := n |} ->
  forall pending' n',
    cache_coherent {| store := store_modify code f st; cache := c;
                      pending_hits := pending'; draws := n' |}.
Proof.
  intros Hcode Htarget Hdis Hco pending' n' e Hin. simpl in *.
  destruct (Hco e Hin) as [m [Hm [Ht Hd]]]. simpl in Hm.
  rewrite (store_lookup_modify code f Hcode), Hm.
  eexists. split; [reflexivity |].
  destruct (has_code code m); [rewrite Htarget, Hdis |]; split; assumption.
Qed.

(** A write on one code keeps the cache coherent once the entry of that
    code is invalidated. *)
Lemma coherent_modify_invalidate (code : string)
  (f : LinkMapping -> LinkMapping) (sys : System) :
  (forall m, shortCode (f m) = shortCode m) ->
  cache_coherent sys ->
  cache_coherent {| store := store_modify code f (store sys);
                    cache := cache_invalidate code (cache sys);
                    pending_hits := pending_hits sys; draws := draws sys |}.
Proof.
  intros Hcode Hco e Hin. simpl in *.
  apply cache_invalidate_in in Hin as [Hin Hne].
  destruct (Hco e Hin) as [m [Hm Ht]].
  rewrite (store_lookup_modify code f Hcode), Hm.
  exists m. split; [| exact Ht].
  apply store_lookup_some in Hm as [_ Hc].
  unfold has_code. rewrite Hc.
  assert (E : String.eqb code (ce_shortCode e) = false).
  { apply String.eqb_neq. congruence. }
  rewrite E. reflexivity.
Qed.

Lemma create_coherent (cfg : Config) (now : Z) (req : CreateRequest) (sys : System) :
  cache_coherent sys -> cache_coherent (snd (create cfg now req sys)).
Proof.
  intros Hco. unfold create.
  destruct (negb (valid_url cfg (req_targetURL req))); [exact Hco |].
  destruct (negb (valid_expiry now (req_expiresAt req))); [exact Hco |].
  match goal with
  | |- context [let '(allocated, n) := ?X in _] =>
      destruct X as [[code | e] n]
  end; [| exact Hco].
  match goal with
  | |- context [store_create ?m ?st] =>
      destruct (store_create m st) as [st' | e] eqn:E
  end; [| exact Hco].
  apply store_create_inl in E as [-> _].
  intros e Hin. simpl in *. destruct (Hco e Hin) as [m [Hm Ht]].
  exists m. split; [| exact Ht]. apply store_lookup_app_found. exact Hm.
Qed.

Lemma classify_active (now : Z) (m : LinkMapping) :
  classify now m = Active -> is_expired now m = false /\ disabled m = false.
Proof.
  unfold classify. destruct (is_expired now m); [discriminate |].
  destruct (disabled m); [discriminate |]. split; reflexivity.
Qed.

Lemma resolve_coherent (cfg : Config) (now : Z) (code : string) (sys : System) :
  cache_coherent sys -> cache_coherent (snd (resolve cfg now code sys)).
Proof.
  intros Hco. unfold resolve.
  destruct (cache_get_spec cfg now code (cache sys)) as [Hsub _].
  destruct (cache_get cfg now code (cache sys)) as [[e0 |] c]; simpl in Hsub.
  - intros e Hin. simpl in *. apply Hco, Hsub, Hin.
  - destruct (store_lookup code (store sys)) as [m |] eqn:Em.
    + destruct (classify now m) eqn:Ec.
      * intros e Hin. simpl in *. apply cache_put_in in Hin as [-> | Hin].
        -- simpl. exists m. split; [exact Em |].
           split; [reflexivity | apply (classify_active now m Ec)].
        -- apply Hco, Hsub, Hin.
      * intros e Hin. simpl in *. apply Hco, Hsub, Hin.
      * intros e Hin. simpl in *. apply Hco, Hsub, Hin.
    + intros e Hin. simpl in *. apply Hco, Hsub, Hin.
Qed.

Lemma resolve_cache_only_coherent (cfg : Config) (now : Z) (code : string)
  (sys : System) :
  cache_coherent sys -> cache_coherent (snd (resolve_cache_only cfg now code sys)).
Proof.
  intros Hco. unfold resolve_cache_only.
  destruct (cache_get_spec cfg now code (cache sys)) as [Hsub _].
  destruct (cache_get cfg now code (cache sys)) as [[e0 |] c]; simpl in Hsub;
    intros e Hin; simpl in *; apply Hco, Hsub, Hin.
Qed.

Lemma flush_coherent (sys : System) :
  cache_coherent sys -> cache_coherent (flush_hits sys).
Proof.
  destruct sys as [st c pending n]. unfold flush_hits. simpl.
  intros Hco. induction pending as [| code pending IH]; simpl.
  - intros e Hin. exact (Hco e Hin).
  - apply (coherent_modify_same_target code add_hit _ c [] n);
      [reflexivity | reflexivity | reflexivity |].
    apply IH. intros e Hin. exact (Hco e Hin).
Qed.

Lemma step_coherent (cfg : Config) (now : Z) (op : operation) (sys : System) :
  cache_coherent sys -> cache_coherent (step cfg now op sys).
Proof.
  intros Hco.
  destruct op as [req | requester code url expiry | requester code | code
                  | code |];
    simpl.
  - apply create_coherent. exact Hco.
  - unfold update.
    destruct (store_lookup code (store sys)) as [m |]; [| exact Hco].
    destruct (negb (String.eqb requester (owner m))); [exact Hco |].
    destruct (negb (valid_url cfg url)); [exact Hco |].
    destruct (negb (valid_expiry now expiry)); [exact Hco |].
    apply coherent_modify_invalidate; [reflexivity | exact Hco].
  - unfold disable.
    destruct (store_lookup code (store sys)) as [m |]; [| exact Hco].
    destruct (negb (String.eqb requester (owner m))); [exact Hco |].
    apply coherent_modify_invalidate; [reflexivity | exact Hco].
  - apply resolve_coherent. exact Hco.
  - apply resolve_cache_only_coherent. exact Hco.
  - apply flush_coherent. exact Hco.
Qed.

Lemma initial_coherent : cache_coherent initial.
Proof. intros e []. Qed.

Lemma run_coherent (cfg : Config) (trace : list (Z * operation)) (sys : System) :
  cache_coherent sys -> cache_coherent (run cfg trace sys).
Proof.
  revert sys. induction trace as [| [now op] trace IH]; simpl; intros sys Hco;
    [exact Hco |].
  apply IH, step_coherent, Hco.
Qed.

(** ** Creation *)

(** What a successful creation leaves in the store. *)
Lemma create_inl (cfg : Config) (now : Z) (req : CreateRequest)
  (sys sys' : System) (code : string) :
  create cfg now req sys = (inl code, sys') ->
  valid_url cfg (req_targetURL req) = true /\
  valid_expiry now (req_expiresAt req) = true /\
  store_lookup code (store sys) = None /\
  cache sys' = cache sys /\
  store sys' =
    store sys ++
    [ {| shortCode := code; targetURL := req_targetURL req;
         createdAt := now; expiresAt := req_expiresAt req;
         hitCount := 0; disabled := false; owner := req_owner req |} ].
Proof.
  unfold create.
  destruct (valid_url cfg (req_targetURL req)); simpl; [| discriminate].
  destruct (valid_expiry now (req_expiresAt req)); simpl; [| discriminate].
  match goal with
  | |- context [let '(allocated, n) := ?X in _] =>
      destruct X as [[code' | e] n]
  end; [| discriminate].
  match goal with
  | |- context [store_create ?m ?st] =>
      destruct (store_create m st) as [st' | e] eqn:E
  end; [| discriminate].
  apply store_create_inl in E as [-> Hfresh]. simpl in Hfresh.
  intros H. inversion H; subst. simpl. repeat split. exact Hfresh.
Qed.

(** A valid request with a free custom code is accepted under that code. *)
Lemma create_custom_succeeds (cfg : Config) (now : Z) (req : CreateRequest)
  (sys : System) (code : string) :
  valid_url cfg (req_targetURL req) = true ->
  valid_expiry now (req_expiresAt req) = true ->
  req_customCode req = Some code ->
  store_lookup code (store sys) = None ->
  exists sys', create cfg now req sys = (inl code, sys').
Proof.
  intros Hu He Hc Hfree. unfold create, store_create.
  rewrite Hu, He, Hc, Hfree. simpl. rewrite Hfree.
  eexists. reflexivity.
Qed.

(** ** The claims on the service *)

(** Round trip on a coherent state. *)
Lemma round_trip_coherent (cfg : Config) (now : Z) (req : CreateRequest)
  (sys sys' : System) (code : string) :
  cache_coherent sys ->
  create cfg now req sys = (inl code, sys') ->
  exists sys'', resolve cfg now code sys' = (inl (req_targetURL req), sys'').
Proof.
  intros Hco Hcreate.
  destruct (create_inl cfg now req sys sys' code Hcreate)
    as [_ [Hexp [Hfresh [Hcache Hstore]]]].
  unfold resolve. rewrite Hstore, Hcache.
  rewrite (store_lookup_app_fresh code (store sys) _ Hfresh).
  unfold has_code. simpl. rewrite String.eqb_refl.
  assert (Hact : classify now
            {| shortCode := code; targetURL := req_targetURL req;
               createdAt := now; expiresAt := req_expiresAt req;
               hitCount := 0; disabled := false; owner := req_owner req |}
          = Active).
  { unfold classify, is_expired. simpl. unfold valid_expiry in Hexp.
    destruct (req_expiresAt req) as [t |]; [| reflexivity].
    apply Z.ltb_lt in Hexp.
    destruct (t <? now) eqn:E; [apply Z.ltb_lt in E; lia | reflexivity]. }
  rewrite Hact, (coherent_miss cfg now code sys Hco Hfresh). simpl.
  eexists. reflexivity.
Qed.

(** C3.  In every state the service can reach, a creation that returns a
    short code was given a valid target, and resolving that code at once
    returns this target; and a valid request with a free custom code is
    accepted, so that the round trip takes place. *)
Theorem create_then_resolve_round_trip
  (cfg : Config) (trace : list (Z * operation)) (now : Z) (req : CreateRequest) :
  let sys := run cfg trace initial in
  (forall (code : string) (sys' : System),
     create cfg now req sys = (inl code, sys') ->
     valid_url cfg (req_targetURL req) = true /\
     exists sys'', resolve cfg now code sys' = (inl (req_targetURL req), sys''))
  /\
  (forall code : string,
     valid_url cfg (req_targetURL req) = true ->
     valid_expiry now (req_expiresAt req) = true ->
     req_customCode req = Some code ->
     store_lookup code (store sys) = None ->
     exists sys' sys'',
       create cfg now req sys = (inl code, sys') /\
       resolve cfg now code sys' = (inl (req_targetURL req), sys'')).
Proof.
  intros sys.
  assert (Hco : cache_coherent sys).
  { apply run_coherent, initial_coherent. }
  split.
  - intros code sys' Hcreate. split.
    + apply (create_inl cfg now req sys sys' code Hcreate).
    + exact (round_trip_coherent cfg now req sys sys' code Hco Hcreate).
  - intros code Hu He Hc Hfree.
    destruct (create_custom_succeeds cfg now req sys code Hu He Hc Hfree)
      as [sys' Hcreate].
    destruct (round_trip_coherent cfg now req sys sys' code Hco Hcreate)
      as [sys'' Hres].
    exists sys', sys''. split; assumption.
Qed.

(** The example of the specification: abc123 created for
    https://example.com, after other operations, resolves to it. *)
Lemma create_then_resolve_example :
  exists sys' sys'',
    create demo 8 example_request
      (run demo [(1, OpCreate expiring_request); (5, OpResolve "00")] initial)
      = (inl "abc123", sys') /\
    resolve demo 8 "abc123" sys' = (inl "https://example.com", sys'').
Proof.
  exact (proj2
           (create_then_resolve_round_trip demo
              [(1, OpCreate expiring_request); (5, OpResolve "00")]
              8 example_request)
           "abc123" eq_refl eq_refl eq_refl eq_refl).
Defined.






(** The example of the specification: abc123 is created and resolved, then
    disabled, and resolves no more. *)
Lemma disable_example :
  fst (resolve demo 3 "abc123"
         (run demo [(0, OpCreate example_request)] initial))
  = inl "https://example.com" /\
  fst (resolve demo 5 "abc123"
         (run demo [ (0, OpCreate example_request); (3, OpResolve "abc123");
                     (4, OpDisable "alice" "abc123") ] initial))
  = inr NotFound.
Proof. split; reflexivity. Qed.

(** C5.  From a store whose codes are unique, whatever operations follow
    (creations, updates, disables, resolutions, flushes), the codes stay
    unique, so that each code identifies at most one target, and the codes
    already assigned stay as they are: later codes come after them. *)
Theorem short_codes_unique_and_immutable
  (cfg : Config) (sys : System) (Hunique : unique_codes (store sys)) :
  forall trace : list (Z * operation),
    unique_codes (store (run cfg trace sys)) /\
    at_most_one_target (store (run cfg trace sys)) /\
    exists later : list string,
      codes (store (run cfg trace sys)) = codes (store sys) ++ later.
Proof.
  intros trace.
  destruct (run_codes cfg trace sys Hunique) as [Hu Hlater].
  split; [exact Hu |]. split; [| exact Hlater].
  apply unique_codes_at_most_one_target. exact Hu.
Qed.

(** From the empty service, along the example trace. *)
Lemma short_codes_unique_example :
  unique_codes (store (run demo example_trace initial)) /\
  at_most_one_target (store (run demo example_trace initial)) /\
  exists later : list string,
    codes (store (run demo example_trace initial)) = codes (store initial) ++ later.
Proof.
  exact (short_codes_unique_and_immutable demo initial
           (NoDup_nil_2 : unique_codes (store initial)) example_trace).
Defined.

End ShortLinkFacts.


(* ===================================================================== *)
(** * Further facts about docs/conf.py                                    *)
(* ===================================================================== *)

Module ConfMore.
Import Conf.
Import ConfFacts.

(** ** Suffixes *)

Lemma append_nil (b : string) : String.append EmptyString b = b.
Proof. reflexivity. Qed.

Lemma append_cons (c : ascii) (a b : string) :
  String.append (String c a) b = String c (String.append a b).
Proof. reflexivity. Qed.

Lemma substring_whole (s : string) : String.substring 0 (String.length s) s = s.
Proof. induction s as [| c s IH]; simpl; [| rewrite IH]; reflexivity. Qed.

Lemma substring_split (a k : nat) (s : string) :
  (a + k = String.length s)%nat ->
  s = String.append (String.substring 0 a s) (String.substring a k s).
Proof.
  revert s. induction a as [| a IH]; intros s Hlen.
  - simpl in Hlen. subst k. rewrite substring_whole.
    destruct s; reflexivity.
  - destruct s as [| c s]; simpl in Hlen; [discriminate |].
    simpl. rewrite append_cons. f_equal. apply IH. lia.
Qed.

Lemma substring_append (pre suf : string) :
  String.substring (String.length pre) (String.length suf)
    (String.append pre suf) = suf.
Proof.
  induction pre as [| c pre IH].
  - rewrite append_nil. simpl. apply substring_whole.
  - rewrite append_cons. simpl. exact IH.
Qed.

Lemma length_append (a b : string) :
  String.length (String.append a b) = (String.length a + String.length b)%nat.
Proof.
  induction a as [| c a IH]; [reflexivity |].
  rewrite append_cons. simpl. rewrite IH. reflexivity.
Qed.

(** [ends_with] is [str.endswith]: the path is something followed by the
    suffix. *)
Lemma ends_with_iff (suf s : string) :
  ends_with suf s = true <-> exists pre, s = String.append pre suf.
Proof.
  unfold ends_with. split.
  - intros H. apply andb_true_iff in H as [Hle Heq].
    apply Nat.leb_le in Hle. apply String.eqb_eq in Heq.
    exists (String.substring 0 (String.length s - String.length suf) s).
    rewrite <- Heq at 2. apply substring_split. lia.
  - intros [pre ->]. rewrite length_append. apply andb_true_iff. split.
    + apply Nat.leb_le. lia.
    + replace (String.length pre + String.length suf - String.length suf)%nat
        with (String.length pre) by lia.
      rewrite substring_append. apply String.eqb_refl.
Qed.

Lemma list_ascii_append (a b : string) :
  list_ascii_of_string (String.append a b)
  = list_ascii_of_string a ++ list_ascii_of_string b.
Proof.
  induction a as [| c a IH]; [reflexivity |].
  rewrite append_cons. simpl. rewrite IH. reflexivity.
Qed.

(** Two suffixes of one path, read from the end. *)
Lemma two_suffixes (s1 s2 path : string) :
  ends_with s1 path = true -> ends_with s2 path = true ->
  exists r1 r2,
    List.rev (list_ascii_of_string s1) ++ r1
    = List.rev (list_ascii_of_string s2) ++ r2.
Proof.
  intros H1 H2.
  apply ends_with_iff in H1 as [p1 E1]. apply ends_with_iff in H2 as [p2 E2].
  exists (List.rev (list_ascii_of_string p1)),
         (List.rev (list_ascii_of_string p2)).
  rewrite <- !List.rev_app_distr, <- !list_ascii_append, <- E1, <- E2.
  reflexivity.
Qed.

Ltac clash H1 H2 :=
  exfalso;
  let r1 := fresh "r" in let r2 := fresh "r" in let E := fresh "E" in
  destruct (two_suffixes _ _ _ H1 H2) as [r1 [r2 E]];
  simpl in E; discriminate E.

(** No path ends with two of the configured suffixes. *)
Lemma suffixes_exclusive (path s1 s2 : string) :
  In s1 (map fst source_suffix) -> In s2 (map fst source_suffix) ->
  ends_with s1 path = true -> ends_with s2 path = true -> s1 = s2.
Proof.
  simpl. intros [<- | [<- | [<- | []]]] [<- | [<- | [<- | []]]] H1 H2;
    try reflexivity; clash H1 H2.
Qed.

Lemma parser_for_some (l : list (string * string)) (path parser : string) :
  parser_for l path = Some parser ->
  exists suf, In (suf, parser) l /\ ends_with suf path = true.
Proof.
  induction l as [| [suf p] l IH]; simpl; [discriminate |].
  destruct (ends_with suf path) eqn:E.
  - intros H. inversion H; subst. exists suf. split; [left; reflexivity | exact E].
  - intros H. destruct (IH H) as [suf' [Hin He]].
    exists suf'. split; [right; exact Hin | exact He].
Qed.

Lemma parser_for_none (l : list (string * string)) (path : string) :
  parser_for l path = None ->
  forall suf parser, In (suf, parser) l -> ends_with suf path = false.
Proof.
  induction l as [| [suf p] l IH]; simpl; [tauto |].
  destruct (ends_with suf path) eqn:E; [discriminate |].
  intros H suf' p' [Heq | Hin].
  - inversion Heq; subst. exact E.
  - exact (IH H suf' p' Hin).
Qed.

Lemma source_suffix_functional (suf p1 p2 : string) :
  In (suf, p1) source_suffix -> In (suf, p2) source_suffix -> p1 = p2.
Proof.
  simpl. intros [H1 | [H1 | [H1 | []]]] [H2 | [H2 | [H2 | []]]];
    inversion H1; subst; inversion H2; subst; reflexivity.
Qed.

(** X1.  The parser of a path does not depend on the order of the items of
    [source_suffix]: no path ends with two of its suffixes, so whatever the
    order in which the suffixes are tried, the same parser, or none, is
    found. *)
Theorem parser_choice_is_unambiguous (path : string) :
  (forall s1 s2 : string,
     In s1 (map fst source_suffix) -> In s2 (map fst source_suffix) ->
     ends_with s1 path = true -> ends_with s2 path = true -> s1 = s2) /\
  (forall l : list (string * string),
     Permutation source_suffix l ->
     parser_for l path = parser_for source_suffix path).
Proof.
  split; [apply suffixes_exclusive |].
  intros l Hperm.
  destruct (parser_for l path) as [p |] eqn:El;
    destruct (parser_for source_suffix path) as [p' |] eqn:Es.
  - apply parser_for_some in El as [s [Hin He]].
    apply parser_for_some in Es as [s' [Hin' He']].
    apply (Permutation_in _ (Permutation_sym Hperm)) in Hin.
    assert (s = s').
    { apply (suffixes_exclusive path); try assumption.
      - apply (in_map fst) in Hin. exact Hin.
      - apply (in_map fst) in Hin'. exact Hin'. }
    subst s'. f_equal. exact (source_suffix_functional s p p' Hin Hin').
  - apply parser_for_some in El as [s [Hin He]].
    apply (Permutation_in _ (Permutation_sym Hperm)) in Hin.
    rewrite (parser_for_none _ _ Es s p Hin) in He. discriminate.
  - apply parser_for_some in Es as [s [Hin He]].
    apply (Permutation_in _ Hperm) in Hin.
    rewrite (parser_for_none _ _ El s p' Hin) in He. discriminate.
  - reflexivity.
Qed.

(** ** Assignments under distinct names *)

Lemma env_get_set_eq (x : string) (v : value) (env : Env) :
  env_get x (env_set x v env) = Some v.
Proof.
  induction env as [| [y u] env IH]; simpl.
  - rewrite String.eqb_refl. reflexivity.
  - destruct (String.eqb x y) eqn:E; simpl; rewrite E; [reflexivity | exact IH].
Qed.

Lemma env_get_set_ne (x y : string) (v : value) (env : Env) :
  x <> y -> env_get x (env_set y v env) = env_get x env.
Proof.
  intros Hne. apply String.eqb_neq in Hne.
  induction env as [| [z u] env IH]; simpl.
  - rewrite Hne. reflexivity.
  - destruct (String.eqb y z) eqn:E; simpl.
    + apply String.eqb_eq in E. subst z. rewrite Hne. reflexivity.
    + destruct (String.eqb x z); [reflexivity | exact IH].
Qed.

(** A body leaves alone the names it does not bind. *)
Lemma exec_stmts_get_other (w : World) (x : string) (body : list stmt) :
  ~ In x (bound_names body) ->
  forall env tr env' tr',
    exec_stmts w (env, tr) body = Some (env', tr') ->
    env_get x env' = env_get x env.
Proof.
  induction body as [| s body IH]; simpl; intros Hx env tr env' tr' Hex.
  - inversion Hex; subst. reflexivity.
  - rewrite in_app_iff in Hx.
    destruct s as [y e | e | m | f ps b]; simpl in Hx, Hex.
    + destruct (eval_expr w env e) as [[v t] |]; [| discriminate].
      rewrite (IH (fun H => Hx (or_intror H)) _ _ _ _ Hex).
      apply env_get_set_ne. intros ->. apply Hx. left. left. reflexivity.
    + destruct (eval_expr w env e) as [[v t] |]; [| discriminate].
      exact (IH (fun H => Hx (or_intror H)) _ _ _ _ Hex).
    + destruct (w_import w m); [| discriminate].
      rewrite (IH (fun H => Hx (or_intror H)) _ _ _ _ Hex).
      apply env_get_set_ne. intros ->. apply Hx. left. left. reflexivity.
    + rewrite (IH (fun H => Hx (or_intror H)) _ _ _ _ Hex).
      apply env_get_set_ne. intros ->. apply Hx. left. left. reflexivity.
Qed.

(** In a body of constant bindings under distinct names, what a statement
    assigns is what the name holds at the end. *)
Lemma const_assignment_final (w : World) (body : list stmt) :
  forallb is_const_binding body = true ->
  NoDup (bound_names body) ->
  forall env tr env' tr',
    exec_stmts w (env, tr) body = Some (env', tr') ->
    forall x e,
      In (SAssign x e) body ->
      exists v, eval_expr w [] e = Some (v, []) /\ env_get x env' = Some v.
Proof.
  induction body as [| s body IH]; simpl; intros Hc Hnd env tr env' tr' Hex x e Hin;
    [contradiction |].
  apply andb_true_iff in Hc as [Hs Hb].
  destruct s as [y e0 | e0 | m | f ps b]; simpl in Hs; try discriminate.
  simpl in Hnd, Hex. apply NoDup_cons in Hnd as [Hy Hnd].
  destruct (eval_expr w env e0) as [[v0 t0] |] eqn:E0; [| discriminate].
  destruct Hin as [Heq | Hin].
  - inversion Heq; subst y e0. exists v0. split.
    + rewrite (literal_eval_independent e Hs w [] w env), E0.
      destruct (literal_eval_pure e Hs w env v0 t0 E0) as [-> _]. reflexivity.
    + rewrite (exec_stmts_get_other w x body
                 (fun H => Hy (proj2 (list_elem_of_In _ _) H)) _ _ _ _ Hex).
      apply env_get_set_eq.
  - exact (IH Hb Hnd _ _ _ _ Hex x e Hin).
Qed.

(** A body of constant bindings runs to its end as soon as each of its
    literals evaluates. *)
Lemma const_module_runs (w : World) (body : list stmt) :
  forallb is_const_binding body = true ->
  (forall x e, In (SAssign x e) body -> eval_expr w [] e <> None) ->
  forall st, exec_stmts w st body <> None.
Proof.
  induction body as [| s body IH]; simpl; intros Hc Hev st; [discriminate |].
  apply andb_true_iff in Hc as [Hs Hb].
  destruct s as [y e0 | e0 | m | f ps b]; simpl in Hs; try discriminate.
  destruct st as [env tr]. simpl.
  rewrite (literal_eval_independent e0 Hs w env w []).
  destruct (eval_expr w [] e0) as [[v0 t0] |] eqn:E0.
  - apply IH; [exact Hb |]. intros x e Hin. apply (Hev x e). right. exact Hin.
  - exfalso. apply (Hev y e0); [left; reflexivity | exact E0].
Qed.

Lemma const_bound_name_assigned (body : list stmt) (x : string) :
  forallb is_const_binding body = true ->
  In x (bound_names body) -> exists e, In (SAssign x e) body.
Proof.
  induction body as [| s body IH]; simpl; intros Hc Hin; [contradiction |].
  apply andb_true_iff in Hc as [Hs Hb].
  destruct s as [y e0 | e0 | m | f ps b]; simpl in Hs; try discriminate.
  simpl in Hin. destruct Hin as [<- | Hin].
  - exists e0. left. reflexivity.
  - destruct (IH Hb Hin) as [e He]. exists e. right. exact He.
Qed.

Lemma const_permutation (body body' : list stmt) :
  Permutation body body' ->
  forallb is_const_binding body = true ->
  forallb is_const_binding body' = true.
Proof.
  intros Hp Hc. apply forallb_forall. intros s Hs.
  apply (Permutation_in _ (Permutation_sym Hp)) in Hs.
  exact (proj1 (forallb_forall _ _) Hc s Hs).
Qed.

(** One direction of the indifference to order. *)
Lemma const_module_reordered (w : World) (body body' : list stmt) :
  forallb is_const_binding body = true ->
  NoDup (bound_names body) ->
  Permutation body body' ->
  forall env tr,
    exec_module w body = Some (env, tr) ->
    exists env' tr',
      exec_module w body' = Some (env', tr') /\
      forall x, env_get x env' = env_get x env.
Proof.
  intros Hc Hnd Hp env tr Hex.
  assert (Hc' : forallb is_const_binding body' = true)
    by exact (const_permutation body body' Hp Hc).
  assert (Hnd' : NoDup (bound_names body')).
  { unfold bound_names in *.
    rewrite <- (Permutation_flat_map _ Hp). exact Hnd. }
  assert (Hruns : exec_module w body' <> None).
  { apply const_module_runs; [exact Hc' |]. intros x e Hin.
    apply (Permutation_in _ (Permutation_sym Hp)) in Hin.
    destruct (const_assignment_final w body Hc Hnd _ _ _ _ Hex x e Hin)
      as [v [Hv _]].
    rewrite Hv. discriminate. }
  destruct (exec_module w body') as [[env' tr'] |] eqn:Hex'; [| contradiction].
  exists env', tr'. split; [reflexivity |]. intros x.
  destruct (in_dec String.string_dec x (bound_names body)) as [Hin | Hout].
  - destruct (const_bound_name_assigned body x Hc Hin) as [e He].
    destruct (const_assignment_final w body Hc Hnd _ _ _ _ Hex x e He)
      as [v [Hv Hg]].
    apply (Permutation_in _ Hp) in He.
    destruct (const_assignment_final w body' Hc' Hnd' _ _ _ _ Hex' x e He)
      as [v' [Hv' Hg']].
    rewrite Hg, Hg'. rewrite Hv in Hv'. inversion Hv'. reflexivity.
  - rewrite (exec_stmts_get_other w x body Hout _ _ _ _ Hex).
    assert (Hout' : ~ In x (bound_names body')).
    { intros H. apply Hout. unfold bound_names in *.
      apply (Permutation_in _ (Permutation_sym (Permutation_flat_map _ Hp))).
      exact H. }
    rewrite (exec_stmts_get_other w x body' Hout' _ _ _ _ Hex').
    reflexivity.
Qed.

Lemma conf_names_distinct : NoDup (bound_names conf_py).
Proof.
  simpl.
  repeat (apply NoDup_cons; split;
          [ rewrite list_elem_of_In; simpl; intuition discriminate |]).
  apply NoDup_nil. exact I.
Qed.

(** X2.  Nothing written in the file is overridden further down: the
    fourteen names are distinct and so are the keys of each dict literal,
    hence every attribute of the module holds the literal its statement
    assigns, and every item of [source_suffix] and of [html_context] is
    found under its key. *)
Theorem every_assignment_is_final :
  NoDup (bound_names conf_py) /\
  NoDup (map fst source_suffix) /\
  NoDup (map fst html_context) /\
  forall w : World,
    (forall (x : string) (e : expr),
       In (SAssign x e) conf_py ->
       exists v, eval_expr w [] e = Some (v, []) /\
                 module_get w conf_py x = Some v) /\
    (forall suf parser : string,
       In (suf, parser) source_suffix ->
       exists items,
         module_get w conf_py "source_suffix" = Some (VDict items) /\
         dict_get (VStr suf) items = Some (VStr parser)) /\
    (forall (key : string) (e : expr),
       In (key, e) html_context ->
       exists items v,
         module_get w conf_py "html_context" = Some (VDict items) /\
         eval_expr w [] e = Some (v, []) /\
         dict_get (VStr key) items = Some v).
Proof.
  split; [exact conf_names_distinct |].
  split.
  { simpl. repeat (apply NoDup_cons; split;
                   [ rewrite list_elem_of_In; simpl; intuition discriminate |]).
    apply NoDup_nil. exact I. }
  split.
  { simpl. repeat (apply NoDup_cons; split;
                   [ rewrite list_elem_of_In; simpl; intuition discriminate |]).
    apply NoDup_nil. exact I. }
  intros w. split; [| split].
  - intros x e Hin. unfold module_get.
    pose proof (conf_py_evaluates w) as Hex. rewrite Hex.
    exact (const_assignment_final w conf_py conf_py_constant
             conf_names_distinct [] [] conf_namespace [] Hex x e Hin).
  - intros suf parser Hin. unfold module_get. rewrite conf_py_evaluates.
    eexists. split; [reflexivity |].
    simpl in Hin. destruct Hin as [H | [H | [H | []]]];
      inversion H; subst; reflexivity.
  - intros key e Hin. unfold module_get. rewrite conf_py_evaluates.
    simpl in Hin.
    destruct Hin as [H | [H | [H | [H | [H | []]]]]];
      inversion H; subst; eexists; eexists;
      (split; [reflexivity | split; reflexivity]).
Qed.

(** X3.  The statements of the file do not depend on one another: run in
    any other order, the module ends with the same value under every
    name. *)
Theorem statement_order_is_irrelevant
  (w : World) (body : list stmt) (Hperm : Permutation conf_py body) :
  forall x : string, module_get w body x = module_get w conf_py x.
Proof.
  intros x. unfold module_get.
  pose proof (conf_py_evaluates w) as Hex.
  destruct (const_module_reordered w conf_py body conf_py_constant
              conf_names_distinct Hperm _ _ Hex) as [env' [tr' [Hex' Hget]]].
  rewrite Hex, Hex'. apply Hget.
Qed.

(** The file read from its last statement to its first. *)
Lemma reversed_module_example :
  module_get chatty_world (List.rev conf_py) "html_context"
  = module_get chatty_world conf_py "html_context".
Proof.
  exact (statement_order_is_irrelevant chatty_world (List.rev conf_py)
           (Permutation_rev conf_py) "html_context").
Defined.

End ConfMore.
